(** * Sign-in form, registration wizard and progress indicator

    A shallow embedding of the client-side logic of the authentication
    screens: the sign-in form ([Login]), the four-step registration wizard
    ([Register]) and the progress bar ([ProgressSteps]).

    JavaScript strings are sequences of UTF-16 code units; the React state
    of a component is a record, an event handler is a function from the
    state of the render it closes over to the next state together with the
    calls it makes to [toast] and [navigate].  Handlers run one at a time.
    The wizard's panel is animated: the panel of a step just left stays
    mounted for a while with the handlers of its last render, which
    [Register.Screen] and [Register.dispatch] account for. *)

From Stdlib Require Import String Ascii.
From stdpp Require Import base numbers list option gmap.

Local Open Scope Z_scope.

(** ** The JavaScript runtime the components rely on *)

Module JS.

(** A string value: the list of its UTF-16 code units. *)
Abbreviation jsstring := (list N).

(** A string literal of the source (all of them are ASCII). *)
Fixpoint lit (s : string) : jsstring :=
  match s with
  | EmptyString => []
  | String a r => N_of_ascii a :: lit r
  end.

(** The empty string. *)
Definition empty : jsstring := [].

(** [ToBoolean] on a string: only the empty string is falsy. *)
Definition truthy (s : jsstring) : bool :=
  match s with [] => false | _ :: _ => true end.

(** [a !== b] on strings compares the code units. *)
Definition strict_neq (a b : jsstring) : bool := negb (bool_decide (a = b)).

(** [s.length] *)
Definition str_length (s : jsstring) : Z := Z.of_nat (length s).

(** WhiteSpace and LineTerminator code units of ECMAScript: what the
    class escape [\s] matches and what [trim] strips. *)
Definition isWhiteSpace (c : N) : bool :=
  ((9 <=? c) && (c <=? 13) || (c =? 32) || (c =? 160) || (c =? 5760)
   || (8192 <=? c) && (c <=? 8202) || (c =? 8232) || (c =? 8233)
   || (c =? 8239) || (c =? 8287) || (c =? 12288) || (c =? 65279))%N.

Fixpoint trimStart (s : jsstring) : jsstring :=
  match s with
  | c :: r => if isWhiteSpace c then trimStart r else s
  | [] => []
  end.

Definition trimEnd (s : jsstring) : jsstring := rev (trimStart (rev s)).

(** [s.trim()] *)
Definition trim (s : jsstring) : jsstring := trimEnd (trimStart s).

(** [{m && <p>{m}</p>}] for [m : string | undefined]: the text of the
    paragraph, none when [m] is falsy. *)
Definition paragraph_if (m : option jsstring) : option jsstring :=
  match m with
  | Some t => if truthy t then Some t else None
  | None => None
  end.

(** [arr[i]] for a number [i]: [undefined] outside the array. *)
Definition index {A} (arr : list A) (i : Z) : option A :=
  if 0 <=? i then arr !! Z.to_nat i else None.

(** *** Regular expressions

    The fragment of the pattern syntax the source uses: a sequence of
    terms, each an assertion ([^], [$]) or an atom (a pattern character,
    an identity escape such as [\.], or a character class), the atom
    possibly under the greedy quantifier [+]. *)

Inductive ClassAtom :=
| ClassChar (c : N)
| ClassEscape_s.

Inductive Atom :=
| PatternCharacter (c : N)
| CharacterClass (invert : bool) (ranges : list ClassAtom).

Inductive Term :=
| AssertBegin
| AssertEnd
| Single (a : Atom)
| Plus (a : Atom).

Definition classAtomMatches (ca : ClassAtom) (c : N) : bool :=
  match ca with
  | ClassChar d => (c =? d)%N
  | ClassEscape_s => isWhiteSpace c
  end.

Definition atomMatches (a : Atom) (c : N) : bool :=
  match a with
  | PatternCharacter d => (c =? d)%N
  | CharacterClass invert ranges =>
      xorb invert (existsb (fun ca => classAtomMatches ca c) ranges)
  end.

(** The backtracking matcher: [matchTerms ts e rest] runs the terms [ts]
    at end index [e], where [rest] is the input from [e] on.  A [+] first
    tries to take one more character and falls back to the terms that
    follow it. *)
Fixpoint matchTerms (ts : list Term) : nat -> jsstring -> bool :=
  match ts with
  | [] => fun _ _ => true
  | AssertBegin :: r => fun e rest => Nat.eqb e 0 && matchTerms r e rest
  | AssertEnd :: r => fun e rest =>
      match rest with [] => matchTerms r e rest | _ :: _ => false end
  | Single a :: r => fun e rest =>
      match rest with
      | c :: rest' => atomMatches a c && matchTerms r (S e) rest'
      | [] => false
      end
  | Plus a :: r =>
      fix more (e : nat) (rest : jsstring) {struct rest} : bool :=
        match rest with
        | c :: rest' =>
            atomMatches a c && (more (S e) rest' || matchTerms r (S e) rest')
        | [] => false
        end
  end.

(** [RegExpBuiltinExec] without the global and sticky flags: try the
    matcher at [lastIndex], then at every later index. *)
Fixpoint execFrom (ts : list Term) (lastIndex : nat) (rest : jsstring) : bool :=
  matchTerms ts lastIndex rest
  || match rest with
     | [] => false
     | _ :: rest' => execFrom ts (S lastIndex) rest'
     end.

(** [re.test(s)] *)
Definition test (ts : list Term) (s : jsstring) : bool := execFrom ts 0%nat s.

End JS.

Import JS.

(** The email pattern both forms test against:
    [/^[^\s@]+@[^\s@]+\.[^\s@]+$/]. *)
Definition notSpaceOrAt : Atom := CharacterClass true [ClassEscape_s; ClassChar 64].

Definition emailRegex : list Term :=
  [AssertBegin; Plus notSpaceOrAt; Single (PatternCharacter 64);
   Plus notSpaceOrAt; Single (PatternCharacter 46); Plus notSpaceOrAt;
   AssertEnd].

(** The pattern [^[^\s@]+@[^\s@]+\.[^\s@]+$] read as a set of strings, as
    the specification words it: a non-empty local part, an at sign, a
    non-empty domain, a dot and a non-empty top-level part, none of the three
    parts holding white space or an at sign. *)
Definition email_part_char (c : N) : Prop := isWhiteSpace c = false ∧ c ≠ 64%N.

Definition email_part (u : jsstring) : Prop := u ≠ [] ∧ Forall email_part_char u.

Definition matches_email_pattern (s : jsstring) : Prop :=
  ∃ l d t, s = l ++ 64%N :: d ++ 46%N :: t
           ∧ email_part l ∧ email_part d ∧ email_part t.

(** The two capabilities the screens consume: the notification hook and the
    router.  A handler's calls are recorded in the order they are made. *)
Inductive Effect :=
| toast (title description : jsstring)
| navigate (path : jsstring).

(** ** The sign-in form *)

Module Login.

Record FormData := mkFormData { email : jsstring; password : jsstring }.

Record Errors := mkErrors { email_error : jsstring; password_error : jsstring }.

Record State := mkState { formData : FormData; errors : Errors }.

Definition initial : State :=
  mkState (mkFormData empty empty) (mkErrors empty empty).

Definition setFormData (fd : FormData) (st : State) : State :=
  mkState fd (errors st).

Definition setErrors (e : Errors) (st : State) : State :=
  mkState (formData st) e.

(** The errors [validateForm] computes from the fields. *)
Definition newErrors (fd : FormData) : Errors :=
  mkErrors
    (if negb (truthy (email fd)) then lit "Email is required"
     else if negb (test emailRegex (email fd)) then lit "Please enter a valid email"
     else empty)
    (if negb (truthy (password fd)) then lit "Password is required"
     else if str_length (password fd) <? 8 then lit "Password must be at least 8 characters"
     else empty).

Definition validateForm (st : State) : State * bool :=
  let ne := newErrors (formData st) in
  (setErrors ne st,
   negb (truthy (email_error ne)) && negb (truthy (password_error ne))).

Definition handleSubmit (st : State) : State * list Effect :=
  let '(st', ok) := validateForm st in
  if negb ok then (st', [])
  else
    (st',
     [toast (lit "Welcome back!")
            (lit "You've successfully signed in to Meridian AI.");
      navigate (lit "/")]).

(** The two [onChange] handlers. *)
Definition onChangeEmail (v : jsstring) (st : State) : State :=
  let fd := formData st in
  let er := errors st in
  setErrors (mkErrors empty (password_error er))
    (setFormData (mkFormData v (password fd)) st).

Definition onChangePassword (v : jsstring) (st : State) : State :=
  let fd := formData st in
  let er := errors st in
  setErrors (mkErrors (email_error er) empty)
    (setFormData (mkFormData (email fd) v) st).

(** What the form renders from the state: the two inputs' values and the
    message under each, when there is one. *)
Record View := mkView {
  emailValue : jsstring;
  emailMessage : option jsstring;
  passwordValue : jsstring;
  passwordMessage : option jsstring
}.

Definition render (st : State) : View :=
  mkView (email (formData st)) (paragraph_if (Some (email_error (errors st))))
         (password (formData st)) (paragraph_if (Some (password_error (errors st)))).

End Login.

(** ** The progress indicator *)

Module ProgressSteps.

(** The colour class of the segment at [index]. *)
Definition segmentClass (currentStep : Z) (index : Z) : jsstring :=
  if index <? currentStep then lit "bg-primary"
  else if index =? currentStep then lit "bg-primary/60"
  else lit "bg-muted".

Definition baseClass : jsstring :=
  lit "h-1 flex-1 rounded-full transition-all duration-500 ".

(** The [className] of the segment at [index]. *)
Definition className (currentStep : Z) (index : Z) : jsstring :=
  baseClass ++ segmentClass currentStep index.

(** [Array.from({ length: totalSteps }).map((_, index) => ...)]: the
    indices [0 .. totalSteps - 1], none when [totalSteps] is not
    positive. *)
Definition indices (totalSteps : Z) : list Z :=
  Z.of_nat <$> seq 0 (Z.to_nat totalSteps).

Record Segment := mkSegment { key : Z; segment_className : jsstring }.

(** The rendered row, one [div] per index. *)
Definition ProgressSteps (currentStep totalSteps : Z) : list Segment :=
  (fun index => mkSegment index (className currentStep index)) <$> indices totalSteps.

(** The three segment states of the contract and the colour that shows
    each of them. *)
Inductive SegmentState := completed | active | pending.

Definition colour (s : SegmentState) : jsstring :=
  match s with
  | completed => lit "bg-primary"
  | active => lit "bg-primary/60"
  | pending => lit "bg-muted"
  end.

(** A segment renders as state [s] when it carries the colour of [s]. *)
Definition renders_as (seg : Segment) (s : SegmentState) : Prop :=
  segment_className seg = baseClass ++ colour s.

End ProgressSteps.

(** ** The registration wizard *)

Module Register.

Record FormData := mkFormData {
  name : jsstring;
  email : jsstring;
  password : jsstring;
  confirmPassword : jsstring
}.

(** [keyof FormData] *)
Inductive keyof_FormData := k_name | k_email | k_password | k_confirmPassword.

#[global] Instance keyof_FormData_eq_dec : EqDecision keyof_FormData.
Proof. solve_decision. Defined.

Definition keyof_FormData_code (k : keyof_FormData) : nat :=
  match k with
  | k_name => 0 | k_email => 1 | k_password => 2 | k_confirmPassword => 3
  end%nat.

Definition keyof_FormData_of_code (n : nat) : keyof_FormData :=
  match n with
  | 0 => k_name | 1 => k_email | 2 => k_password | _ => k_confirmPassword
  end%nat.

#[global] Instance keyof_FormData_countable : Countable keyof_FormData.
Proof.
  apply (inj_countable' keyof_FormData_code keyof_FormData_of_code).
  intros []; reflexivity.
Defined.

(** [formData[field]] *)
Definition get (fd : FormData) (field : keyof_FormData) : jsstring :=
  match field with
  | k_name => name fd
  | k_email => email fd
  | k_password => password fd
  | k_confirmPassword => confirmPassword fd
  end.

(** [{ ...formData, [field]: value }] *)
Definition set (fd : FormData) (field : keyof_FormData) (value : jsstring) : FormData :=
  match field with
  | k_name => mkFormData value (email fd) (password fd) (confirmPassword fd)
  | k_email => mkFormData (name fd) value (password fd) (confirmPassword fd)
  | k_password => mkFormData (name fd) (email fd) value (confirmPassword fd)
  | k_confirmPassword => mkFormData (name fd) (email fd) (password fd) value
  end.

(** The component's state: [errors] is a [Partial<FormData>], a partial
    map from the field keys to messages. *)
Record State := mkState {
  currentStep : Z;
  formData : FormData;
  errors : gmap keyof_FormData jsstring
}.

Definition initial : State :=
  mkState 0 (mkFormData empty empty empty empty) ∅.

Definition setCurrentStep (n : Z) (st : State) : State :=
  mkState n (formData st) (errors st).

Definition setFormData (fd : FormData) (st : State) : State :=
  mkState (currentStep st) fd (errors st).

Definition setErrors (e : gmap keyof_FormData jsstring) (st : State) : State :=
  mkState (currentStep st) (formData st) e.

Record Step := mkStep {
  field : keyof_FormData;
  label : jsstring;
  placeholder : jsstring;
  type : jsstring
}.

Definition steps : list Step :=
  [ mkStep k_name (lit "What's your full name?") (lit "Enter your full name") (lit "text");
    mkStep k_email (lit "What's your email?") (lit "you@company.com") (lit "email");
    mkStep k_password (lit "Create a secure password") (lit "Min. 8 characters") (lit "password");
    mkStep k_confirmPassword (lit "Confirm your password") (lit "Re-enter your password") (lit "password") ].

(** [steps[currentStep]]; [None] is [undefined]. *)
Definition currentField (st : State) : option Step := index steps (currentStep st).

(** [validateField] of the render with state [st]: [None] is [null]. *)
Definition validateField (st : State) (fld : keyof_FormData) (value : jsstring)
  : option jsstring :=
  match fld with
  | k_name =>
      if str_length (trim value) <? 2
      then Some (lit "Name must be at least 2 characters") else None
  | k_email =>
      if negb (test emailRegex value)
      then Some (lit "Please enter a valid email") else None
  | k_password =>
      if str_length value <? 8
      then Some (lit "Password must be at least 8 characters") else None
  | k_confirmPassword =>
      if strict_neq value (password (formData st))
      then Some (lit "Passwords do not match") else None
  end.

Definition handleSubmit : list Effect :=
  [toast (lit "Account created!") (lit "Welcome to Meridian AI.");
   navigate (lit "/")].

(** Reading [currentField.field] when [currentField] is [undefined] throws;
    a handler that throws is [None]. *)
Definition handleNext (st : State) : option (State * list Effect) :=
  cf ← currentField st;
  let value := get (formData st) (field cf) in
  let error := validateField st (field cf) value in
  let proceed :=
    let st1 := setErrors (<[field cf := empty]> (errors st)) st in
    if currentStep st <? Z.of_nat (length steps) - 1
    then (setCurrentStep (currentStep st + 1) st1, [])
    else (st1, handleSubmit) in
  match error with
  | Some msg =>
      if truthy msg
      then Some (setErrors (<[field cf := msg]> (errors st)) st, [])
      else Some proceed
  | None => Some proceed
  end.

Definition handleBack (st : State) : State :=
  if currentStep st >? 0 then setCurrentStep (currentStep st - 1) st else st.

Definition handleKeyDown (key : jsstring) (st : State) : option (State * list Effect) :=
  if bool_decide (key = lit "Enter") then handleNext st else Some (st, []).

(** The input's [onChange] with [e.target.value = v]. *)
Definition onChange (v : jsstring) (st : State) : option State :=
  cf ← currentField st;
  Some (setErrors (<[field cf := empty]> (errors st))
          (setFormData (set (formData st) (field cf) v) st)).

(** The [onClick] of the "Sign in" button under the panel. *)
Definition onClickSignIn : list Effect := [navigate (lit "/login")].

(** The user's inputs on the wizard, and the handler each one runs. *)
Inductive Action :=
| Change (v : jsstring)
| ClickNext
| ClickBack
| KeyDown (key : jsstring)
| ClickSignIn.

Definition handle (a : Action) (st : State) : option (State * list Effect) :=
  match a with
  | Change v => st' ← onChange v st; Some (st', [])
  | ClickNext => handleNext st
  | ClickBack => Some (handleBack st, [])
  | KeyDown key => handleKeyDown key st
  | ClickSignIn => Some (st, onClickSignIn)
  end.

(** A session: the states after each input (most recent last) and every
    call made to [toast] and [navigate]. *)
Fixpoint run (acts : list Action) (st : State)
  : option (list State * list Effect) :=
  match acts with
  | [] => Some ([], [])
  | a :: rest =>
      '(st', out) ← handle a st;
      '(sts, outs) ← run rest st';
      Some (st' :: sts, out ++ outs)
  end.

(** The states of the sessions in which every input is handled by the
    latest render: no input lands on a panel that is animating out. *)
Inductive reachable_in_order : State -> Prop :=
| in_order_initial : reachable_in_order initial
| in_order_handle st a st' out :
    reachable_in_order st -> handle a st = Some (st', out) ->
    reachable_in_order st'.

(** *** Handlers of a panel that is animating out

    The input and the two buttons are rendered inside
    [<AnimatePresence mode="wait">], in a [motion.div] with
    [key={currentStep}].  When the step changes, the panel of the step left
    stays mounted until its exit animation is over, and it keeps the
    handlers of its last render; the panel of the new step is mounted only
    then.  A handler of such a panel reads the state [s] of the render that
    made it, and its setters replace parts of the component's state [cur]. *)

Definition handleNext_from (s cur : State) : option (State * list Effect) :=
  cf ← currentField s;
  let value := get (formData s) (field cf) in
  let error := validateField s (field cf) value in
  let proceed :=
    let st1 := setErrors (<[field cf := empty]> (errors s)) cur in
    if currentStep s <? Z.of_nat (length steps) - 1
    then (setCurrentStep (currentStep s + 1) st1, [])
    else (st1, handleSubmit) in
  match error with
  | Some msg =>
      if truthy msg
      then Some (setErrors (<[field cf := msg]> (errors s)) cur, [])
      else Some proceed
  | None => Some proceed
  end.

Definition handleBack_from (s cur : State) : State :=
  if currentStep s >? 0 then setCurrentStep (currentStep s - 1) cur else cur.

Definition handleKeyDown_from (key : jsstring) (s cur : State)
  : option (State * list Effect) :=
  if bool_decide (key = lit "Enter") then handleNext_from s cur else Some (cur, []).

Definition onChange_from (v : jsstring) (s cur : State) : option State :=
  cf ← currentField s;
  Some (setErrors (<[field cf := empty]> (errors s))
          (setFormData (set (formData s) (field cf) v) cur)).

(** The "Sign in" button is outside the animated panel. *)
Definition handle_from (a : Action) (s cur : State) : option (State * list Effect) :=
  match a with
  | Change v => st' ← onChange_from v s cur; Some (st', [])
  | ClickNext => handleNext_from s cur
  | ClickBack => Some (handleBack_from s cur, [])
  | KeyDown key => handleKeyDown_from key s cur
  | ClickSignIn => Some (cur, onClickSignIn)
  end.

(** The mounted wizard: the component's state and the state of the render
    whose handlers the mounted panel carries. *)
Record Screen := mkScreen { component : State; panel : State }.

(** An input on the mounted panel.  The panel is rendered again, with new
    handlers, as long as its key is the current step; otherwise it keeps
    the handlers it has. *)
Definition dispatch (a : Action) (ui : Screen) : option (Screen * list Effect) :=
  '(cur, out) ← handle_from a (panel ui) (component ui);
  Some (mkScreen cur
          (if currentStep cur =? currentStep (panel ui) then cur else panel ui),
        out).

(** The exit animation is over: the panel of the current step is mounted. *)
Definition exitComplete (ui : Screen) : Screen :=
  mkScreen (component ui) (component ui).

Inductive screen_reachable : Screen -> Prop :=
| screen_initial : screen_reachable (mkScreen initial initial)
| screen_dispatch ui a ui' out :
    screen_reachable ui -> dispatch a ui = Some (ui', out) ->
    screen_reachable ui'
| screen_exitComplete ui :
    screen_reachable ui -> screen_reachable (exitComplete ui).

(** The states the component can be in. *)
Definition reachable (st : State) : Prop :=
  ∃ ui, screen_reachable ui ∧ component ui = st.

(** What happens to the mounted wizard: an input on the mounted panel, or
    the end of an exit animation. *)
Inductive Event :=
| Input (a : Action)
| AnimationEnd.

Definition react (e : Event) (ui : Screen) : option (Screen * list Effect) :=
  match e with
  | Input a => dispatch a ui
  | AnimationEnd => Some (exitComplete ui, [])
  end.

Fixpoint session (es : list Event) (ui : Screen) : option (Screen * list Effect) :=
  match es with
  | [] => Some (ui, [])
  | e :: rest =>
      '(ui', out) ← react e ui;
      '(ui'', outs) ← session rest ui';
      Some (ui'', out ++ outs)
  end.

(** What the wizard renders from the state: the progress bar, the active
    step's label and input, the message under it, whether the back button
    is there and the text of the forward button.  Rendering reads
    [currentField.field] and throws when [currentField] is [undefined]. *)
Record View := mkView {
  progress : list ProgressSteps.Segment;
  inputLabel : jsstring;
  inputType : jsstring;
  inputPlaceholder : jsstring;
  inputValue : jsstring;
  message : option jsstring;
  backButton : bool;
  nextButton : jsstring
}.

Definition render (st : State) : option View :=
  cf ← currentField st;
  Some (mkView
          (ProgressSteps.ProgressSteps (currentStep st) (Z.of_nat (length steps)))
          (label cf) (type cf) (placeholder cf)
          (get (formData st) (field cf))
          (paragraph_if (errors st !! field cf))
          (currentStep st >? 0)
          (if currentStep st =? Z.of_nat (length steps) - 1
           then lit "Finish Registration" else lit "Continue")).

End Register.

(** ** Specification-side definitions *)

(** Both forms accept [s] as an email: the sign-in form leaves the email
    error empty whatever the password and the errors shown before, and the
    wizard's validator returns [null]. *)
Definition email_accepted (s : jsstring) : Prop :=
  (∀ pw errs,
      Login.email_error
        (Login.errors (Login.validateForm (Login.mkState (Login.mkFormData s pw) errs)).1)
      = empty)
  ∧ ∀ st, Register.validateField st Register.k_email s = None.

(** Both forms reject [s] with the invalid-email message. *)
Definition email_rejected (s : jsstring) : Prop :=
  (∀ pw errs,
      Login.email_error
        (Login.errors (Login.validateForm (Login.mkState (Login.mkFormData s pw) errs)).1)
      = lit "Please enter a valid email")
  ∧ ∀ st, Register.validateField st Register.k_email s
          = Some (lit "Please enter a valid email").

(** The invariant of the wizard: the step index is in range and every field
    bound to a step before the current one passes its validator. *)
Definition wizard_inv (st : Register.State) : Prop :=
  let fd := Register.formData st in
  0 ≤ Register.currentStep st < 4
  ∧ (1 ≤ Register.currentStep st → 2 ≤ str_length (trim (Register.name fd)))
  ∧ (2 ≤ Register.currentStep st → test emailRegex (Register.email fd) = true)
  ∧ (3 ≤ Register.currentStep st → 8 ≤ str_length (Register.password fd)).

(** The inputs of a complete registration with name [n] and email [e]. *)
Definition registration (n e : jsstring) : list Register.Action :=
  [Register.Change n; Register.ClickNext;
   Register.Change e; Register.ClickNext;
   Register.Change (lit "abcdefgh"); Register.ClickNext;
   Register.Change (lit "abcdefgh"); Register.ClickNext].

(** The step a field is bound to: its position in [steps]. *)
Definition step_of (k : Register.keyof_FormData) : Z :=
  match k with
  | Register.k_name => 0
  | Register.k_email => 1
  | Register.k_password => 2
  | Register.k_confirmPassword => 3
  end.

(** Every step before the current one has its error recorded as the empty
    string. *)
Definition passed_errors_cleared (st : Register.State) : Prop :=
  ∀ k, step_of k < Register.currentStep st → Register.errors st !! k = Some empty.

(** The invariant of the mounted wizard: both steps are in range and at
    most one apart, both states have the errors of their passed steps
    cleared, and the component is a step ahead of the panel only when the
    panel's field passes its validator. *)
Definition screen_inv (ui : Register.Screen) : Prop :=
  let c := Register.component ui in
  let m := Register.panel ui in
  0 ≤ Register.currentStep m < 4
  ∧ 0 ≤ Register.currentStep c < 4
  ∧ Register.currentStep m - 1 ≤ Register.currentStep c ≤ Register.currentStep m + 1
  ∧ passed_errors_cleared m
  ∧ passed_errors_cleared c
  ∧ (Register.currentStep c = Register.currentStep m + 1 →
     ∀ cf, Register.currentField m = Some cf →
           Register.validateField m (Register.field cf)
             (Register.get (Register.formData m) (Register.field cf)) = None).

(** The name [Al] entered and passed, then cut to [A] in the panel that is
    still animating out. *)
Definition cut_name_events : list Register.Event :=
  [Register.Input (Register.Change (lit "Al"));
   Register.Input Register.ClickNext;
   Register.Input (Register.Change (lit "A"))].

Definition cut_name_state : Register.State :=
  Register.mkState 1 (Register.mkFormData (lit "A") empty empty empty)
    (<[Register.k_name := empty]> ∅).

(** The rest of a registration, each panel waited for. *)
Definition remaining_steps_events : list Register.Event :=
  [Register.AnimationEnd;
   Register.Input (Register.Change (lit "a@b.co"));
   Register.Input Register.ClickNext;
   Register.AnimationEnd;
   Register.Input (Register.Change (lit "abcdefgh"));
   Register.Input Register.ClickNext;
   Register.AnimationEnd;
   Register.Input (Register.Change (lit "abcdefgh"));
   Register.Input Register.ClickNext].

(** The number of at signs in a string. *)
Definition count_at (s : jsstring) : nat := length (filter (λ c, c = 64%N) s).

(** The row of [count] segments whose segment [current] is the active one. *)
Definition row_with_active (current count : nat) : list ProgressSteps.SegmentState :=
  replicate current ProgressSteps.completed
  ++ ProgressSteps.active
  :: replicate (count - current - 1) ProgressSteps.pending.

(** The fields the sign-in form lets through. *)
Definition signin_valid (fd : Login.FormData) : Prop :=
  matches_email_pattern (Login.email fd) ∧ 8 ≤ str_length (Login.password fd).

(** * Properties *)

(** ** The regular-expression matcher *)

Section Matcher.

Variable a : Atom.
Variable r : list Term.

Lemma matchTerms_Plus_cons e c rest :
  matchTerms (Plus a :: r) e (c :: rest)
  = atomMatches a c
    && (matchTerms (Plus a :: r) (S e) rest || matchTerms r (S e) rest).
Proof. reflexivity. Qed.

Lemma matchTerms_Plus_nil e : matchTerms (Plus a :: r) e [] = false.
Proof. reflexivity. Qed.

(** A [+] takes a non-empty run of matching characters and hands the
    remainder to the terms after it. *)
Lemma matchTerms_Plus e s :
  matchTerms (Plus a :: r) e s = true
  ↔ ∃ u v, s = u ++ v ∧ u ≠ [] ∧ forallb (atomMatches a) u = true
           ∧ matchTerms r (e + length u)%nat v = true.
Proof.
  revert e. induction s as [|c s IH]; intros e.
  - rewrite matchTerms_Plus_nil. split; [discriminate|].
    intros (u & v & Hs & Hu & _). destruct u; [done | discriminate].
  - rewrite matchTerms_Plus_cons, andb_true_iff, orb_true_iff, IH.
    split.
    + intros [Hc [(u & v & -> & Hu & Hall & Hm) | Hm]].
      * exists (c :: u), v. simpl. rewrite Hc, Hall.
        replace (e + S (length u))%nat with (S e + length u)%nat by lia.
        done.
      * exists [c], s. simpl. rewrite Hc.
        replace (e + 1)%nat with (S e) by lia. done.
    + intros (u & v & Hs & Hu & Hall & Hm).
      destruct u as [|c' u]; [done|]. simpl in Hs, Hall.
      injection Hs as <- ->. apply andb_true_iff in Hall as [Hc Hall].
      split; [done|]. destruct u as [|c'' u].
      * right. simpl in Hm. replace (S e) with (e + 1)%nat by lia. done.
      * left. exists (c'' :: u), v. repeat split; [done | done |].
        replace (S e + length (c'' :: u))%nat
          with (e + length (c :: c'' :: u))%nat by (simpl; lia).
        done.
Qed.

Lemma matchTerms_Single e s :
  matchTerms (Single a :: r) e s = true
  ↔ ∃ c v, s = c :: v ∧ atomMatches a c = true ∧ matchTerms r (S e) v = true.
Proof.
  destruct s as [|c v]; simpl.
  - split; [discriminate | intros (? & ? & ? & _); discriminate].
  - rewrite andb_true_iff. split.
    + intros [? ?]. eauto.
    + intros (? & ? & [= <- <-] & ? & ?). done.
Qed.

Lemma matchTerms_AssertEnd e s :
  matchTerms (AssertEnd :: r) e s = true ↔ s = [] ∧ matchTerms r e [] = true.
Proof.
  destruct s; simpl.
  - split; [intros ?; split; done | intros [_ ?]; done].
  - split; [discriminate | intros [? _]; discriminate].
Qed.

(** A pattern that starts with [^] matches at index 0 or not at all. *)
Lemma execFrom_AssertBegin e s :
  e ≠ 0%nat → execFrom (AssertBegin :: r) e s = false.
Proof.
  revert e. induction s as [|c s IH]; intros e He; simpl.
  - destruct e; [done | reflexivity].
  - rewrite IH by lia. destruct e; [done | reflexivity].
Qed.

Lemma test_AssertBegin s :
  test (AssertBegin :: r) s = matchTerms r 0%nat s.
Proof.
  unfold test. destruct s as [|c s]; simpl.
  - apply orb_false_r.
  - rewrite execFrom_AssertBegin by lia. apply orb_false_r.
Qed.

End Matcher.

Lemma atomMatches_notSpaceOrAt c :
  atomMatches notSpaceOrAt c = true ↔ email_part_char c.
Proof.
  unfold email_part_char. simpl. rewrite orb_false_r.
  destruct (isWhiteSpace c); simpl.
  - split; [discriminate | intros [? _]; discriminate].
  - destruct (N.eqb_spec c 64) as [->|Hne]; simpl.
    + split; [discriminate | intros [_ ?]; done].
    + split; [intros _; split; done | reflexivity].
Qed.

Lemma forallb_notSpaceOrAt u :
  forallb (atomMatches notSpaceOrAt) u = true ↔ Forall email_part_char u.
Proof.
  induction u as [|c u IH]; cbn [forallb].
  - split; [constructor | reflexivity].
  - rewrite andb_true_iff, Forall_cons, IH, atomMatches_notSpaceOrAt. reflexivity.
Qed.

(** The engine run on the email pattern accepts exactly the strings of the
    pattern's language. *)
Lemma test_emailRegex s :
  test emailRegex s = true ↔ matches_email_pattern s.
Proof.
  unfold emailRegex, matches_email_pattern, email_part.
  rewrite test_AssertBegin, matchTerms_Plus.
  split.
  - intros (l & v & -> & Hl & Hal & Hm).
    apply matchTerms_Single in Hm as (c & v1 & -> & Hc & Hm).
    apply N.eqb_eq in Hc as ->.
    apply matchTerms_Plus in Hm as (d & v2 & -> & Hd & Had & Hm).
    apply matchTerms_Single in Hm as (c & v3 & -> & Hc & Hm).
    apply N.eqb_eq in Hc as ->.
    apply matchTerms_Plus in Hm as (t & v4 & -> & Ht & Hat & Hm).
    apply matchTerms_AssertEnd in Hm as [-> _].
    exists l, d, t. rewrite app_nil_r.
    rewrite <- !forallb_notSpaceOrAt. done.
  - intros (l & d & t & -> & [Hl Hal] & [Hd Had] & [Ht Hat]).
    exists l, (64%N :: d ++ 46%N :: t).
    rewrite forallb_notSpaceOrAt. repeat split; [done | done |].
    apply matchTerms_Single. exists 64%N, (d ++ 46%N :: t).
    repeat split. apply matchTerms_Plus.
    exists d, (46%N :: t). rewrite forallb_notSpaceOrAt.
    repeat split; [done | done |].
    apply matchTerms_Single. exists 46%N, t. repeat split.
    apply matchTerms_Plus. exists t, []. rewrite forallb_notSpaceOrAt, app_nil_r.
    repeat split; done.
Qed.

Lemma matches_email_pattern_nonempty s : matches_email_pattern s → s ≠ [].
Proof. intros (l & d & t & -> & _) H. by destruct l. Qed.

(** ** Email validation *)

Lemma Login_email_error_empty fd :
  Login.email_error (Login.newErrors fd) = empty
  ↔ matches_email_pattern (Login.email fd).
Proof.
  unfold Login.newErrors. cbn [Login.email_error].
  destruct (Login.email fd) as [|c s] eqn:He; cbn [truthy negb].
  - split; [discriminate | intros H%matches_email_pattern_nonempty; done].
  - rewrite <- test_emailRegex.
    destruct (test emailRegex (c :: s)); cbn [negb]; split; done.
Qed.

Lemma Register_email_valid st s :
  Register.validateField st Register.k_email s = None ↔ matches_email_pattern s.
Proof.
  rewrite <- test_emailRegex. cbn [Register.validateField].
  destruct (test emailRegex s); cbn [negb]; split; done.
Qed.

(** C2. In the sign-in form and in the registration wizard alike, the email
    check accepts a string exactly when the string belongs to the language
    of [^[^\s@]+@[^\s@]+\.[^\s@]+$]: the sign-in form leaves the email error
    empty, the wizard's validator returns no message.  [a@b.co] is accepted;
    [a@b], [@b.co] and [a b@c.com] are rejected by both. *)
Theorem email_validation_accepts_iff_pattern :
  (∀ st : Login.State,
      Login.email_error (Login.errors (Login.validateForm st).1) = empty
      ↔ matches_email_pattern (Login.email (Login.formData st)))
  ∧ (∀ (st : Register.State) (s : jsstring),
        Register.validateField st Register.k_email s = None
        ↔ matches_email_pattern s)
  ∧ matches_email_pattern (lit "a@b.co") ∧ email_accepted (lit "a@b.co")
  ∧ ¬ matches_email_pattern (lit "a@b") ∧ email_rejected (lit "a@b")
  ∧ ¬ matches_email_pattern (lit "@b.co") ∧ email_rejected (lit "@b.co")
  ∧ ¬ matches_email_pattern (lit "a b@c.com") ∧ email_rejected (lit "a b@c.com").
Proof.
  assert (∀ s, test emailRegex s = false → ¬ matches_email_pattern s) as Hno.
  { intros s Ht. rewrite <- test_emailRegex, Ht. discriminate. }
  split_and!.
  - intros st. apply Login_email_error_empty.
  - intros st s. apply Register_email_valid.
  - by apply test_emailRegex.
  - split; reflexivity.
  - by apply Hno.
  - split; reflexivity.
  - by apply Hno.
  - split; reflexivity.
  - by apply Hno.
  - split; reflexivity.
Qed.

(** ** The sign-in form *)

Lemma Login_password_error_short e p :
  p ≠ [] → str_length p < 8 →
  Login.password_error (Login.newErrors (Login.mkFormData e p))
  = lit "Password must be at least 8 characters".
Proof.
  intros Hp Hlen. unfold Login.newErrors. cbn [Login.password_error Login.password].
  destruct p as [|c p]; [done|]. cbn [truthy negb].
  destruct (Z.ltb_spec (str_length (c :: p)) 8); [reflexivity | lia].
Qed.

Lemma Login_password_error_long e p :
  8 ≤ str_length p →
  Login.password_error (Login.newErrors (Login.mkFormData e p)) = empty.
Proof.
  intros Hlen. unfold Login.newErrors. cbn [Login.password_error Login.password].
  destruct p as [|c p]; [unfold str_length in Hlen; simpl in Hlen; lia|].
  cbn [truthy negb].
  destruct (Z.ltb_spec (str_length (c :: p)) 8); [lia | reflexivity].
Qed.

Lemma Login_newErrors_eta fd :
  Login.newErrors fd
  = Login.mkErrors (Login.email_error (Login.newErrors fd))
                   (Login.password_error (Login.newErrors fd)).
Proof. reflexivity. Qed.

(** C6. Submitting the sign-in form with both fields empty sets the two
    errors to "Email is required" and "Password is required" and calls
    neither [toast] nor [navigate]. *)
Theorem signin_empty_fields_both_required :
  ∀ errs : Login.Errors,
    Login.handleSubmit (Login.mkState (Login.mkFormData empty empty) errs)
    = (Login.mkState (Login.mkFormData empty empty)
         (Login.mkErrors (lit "Email is required") (lit "Password is required")),
       []).
Proof. intros errs. reflexivity. Qed.

(** C7. With the email [user@test.com], a password of 7 characters sets the
    password-length error only (the email error is empty) and makes no
    call; a password of 8 characters or more clears both errors and makes
    exactly one [toast] call followed by one [navigate("/")]. *)
Theorem signin_password_length (p7 p8 : jsstring) (errs : Login.Errors) :
  str_length p7 = 7 →
  8 ≤ str_length p8 →
  Login.handleSubmit
    (Login.mkState (Login.mkFormData (lit "user@test.com") p7) errs)
  = (Login.mkState (Login.mkFormData (lit "user@test.com") p7)
       (Login.mkErrors empty (lit "Password must be at least 8 characters")),
     [])
  ∧ Login.handleSubmit
      (Login.mkState (Login.mkFormData (lit "user@test.com") p8) errs)
    = (Login.mkState (Login.mkFormData (lit "user@test.com") p8)
         (Login.mkErrors empty empty),
       [toast (lit "Welcome back!")
              (lit "You've successfully signed in to Meridian AI.");
        navigate (lit "/")]).
Proof.
  intros H7 H8. split.
  - unfold Login.handleSubmit, Login.validateForm, Login.setErrors.
    cbn [Login.formData]. rewrite Login_newErrors_eta.
    rewrite Login_password_error_short.
    + reflexivity.
    + intros ->. discriminate.
    + lia.
  - unfold Login.handleSubmit, Login.validateForm, Login.setErrors.
    cbn [Login.formData]. rewrite Login_newErrors_eta.
    rewrite Login_password_error_long by done. reflexivity.
Qed.

Lemma signin_password_length_witness :
  Login.handleSubmit
    (Login.mkState (Login.mkFormData (lit "user@test.com") (lit "1234567"))
       (Login.mkErrors empty empty))
  = (Login.mkState (Login.mkFormData (lit "user@test.com") (lit "1234567"))
       (Login.mkErrors empty (lit "Password must be at least 8 characters")),
     [])
  ∧ Login.handleSubmit
      (Login.mkState (Login.mkFormData (lit "user@test.com") (lit "12345678"))
         (Login.mkErrors empty empty))
    = (Login.mkState (Login.mkFormData (lit "user@test.com") (lit "12345678"))
         (Login.mkErrors empty empty),
       [toast (lit "Welcome back!")
              (lit "You've successfully signed in to Meridian AI.");
        navigate (lit "/")]).
Proof.
  apply (signin_password_length (lit "1234567") (lit "12345678")).
  - reflexivity.
  - vm_compute. discriminate.
Defined.

(** ** The progress indicator *)

Lemma ProgressSteps_length currentStep totalSteps :
  length (ProgressSteps.ProgressSteps currentStep totalSteps) = Z.to_nat totalSteps.
Proof.
  unfold ProgressSteps.ProgressSteps, ProgressSteps.indices.
  by rewrite !length_fmap, length_seq.
Qed.

Lemma ProgressSteps_lookup currentStep totalSteps i :
  0 ≤ i < totalSteps →
  ProgressSteps.ProgressSteps currentStep totalSteps !! Z.to_nat i
  = Some (ProgressSteps.mkSegment i (ProgressSteps.className currentStep i)).
Proof.
  intros Hi. unfold ProgressSteps.ProgressSteps, ProgressSteps.indices.
  rewrite !list_lookup_fmap, lookup_seq_lt by lia. simpl.
  by rewrite Z2Nat.id by lia.
Qed.

(** [Array.from] builds no element for a length that is not positive. *)
Lemma ProgressSteps_nonpositive currentStep totalSteps :
  totalSteps ≤ 0 → ProgressSteps.ProgressSteps currentStep totalSteps = [].
Proof.
  intros H. unfold ProgressSteps.ProgressSteps, ProgressSteps.indices.
  by replace (Z.to_nat totalSteps) with 0%nat by lia.
Qed.

(** The three colours are pairwise distinct: a segment shows one state. *)
Lemma renders_as_functional seg s s' :
  ProgressSteps.renders_as seg s → ProgressSteps.renders_as seg s' → s = s'.
Proof.
  unfold ProgressSteps.renders_as. intros -> H.
  apply app_inv_head in H. by destruct s, s'.
Qed.

(** C8. [ProgressSteps] is a function of [(currentStep, totalSteps)] alone:
    for a segment count [totalSteps >= 0] it yields exactly [totalSteps]
    segments, the one at index [i] completed when [i < currentStep], active
    when [i = currentStep] and pending when [i > currentStep] (and a segment
    shows one state only).  For [totalSteps = 4] and [currentStep = 2] the
    row is completed, completed, active, pending. *)
Theorem progress_segments_by_index (currentStep totalSteps : Z) :
  0 ≤ totalSteps →
  Z.of_nat (length (ProgressSteps.ProgressSteps currentStep totalSteps)) = totalSteps
  ∧ (∀ i, 0 ≤ i < totalSteps →
       ∃ seg,
         ProgressSteps.ProgressSteps currentStep totalSteps !! Z.to_nat i = Some seg
         ∧ ProgressSteps.key seg = i
         ∧ (i < currentStep → ProgressSteps.renders_as seg ProgressSteps.completed)
         ∧ (i = currentStep → ProgressSteps.renders_as seg ProgressSteps.active)
         ∧ (currentStep < i → ProgressSteps.renders_as seg ProgressSteps.pending))
  ∧ (∀ seg s s',
       ProgressSteps.renders_as seg s → ProgressSteps.renders_as seg s' → s = s')
  ∧ Forall2 ProgressSteps.renders_as (ProgressSteps.ProgressSteps 2 4)
      [ProgressSteps.completed; ProgressSteps.completed;
       ProgressSteps.active; ProgressSteps.pending].
Proof.
  intros Hts. split_and!.
  - rewrite ProgressSteps_length. lia.
  - intros i Hi. eexists. split; [by apply ProgressSteps_lookup|].
    unfold ProgressSteps.renders_as, ProgressSteps.className,
      ProgressSteps.segmentClass.
    cbn [ProgressSteps.key ProgressSteps.segment_className ProgressSteps.colour].
    split_and!; [done | intros H | intros H | intros H].
    + by destruct (Z.ltb_spec i currentStep); [|lia].
    + destruct (Z.ltb_spec i currentStep); [lia|].
      by destruct (Z.eqb_spec i currentStep).
    + destruct (Z.ltb_spec i currentStep); [lia|].
      by destruct (Z.eqb_spec i currentStep); [lia|].
  - apply renders_as_functional.
  - repeat constructor.
Qed.

Lemma progress_segments_by_index_witness :
  Z.of_nat (length (ProgressSteps.ProgressSteps 2 4)) = 4
  ∧ ∃ seg, ProgressSteps.ProgressSteps 2 4 !! Z.to_nat 3 = Some seg
           ∧ ProgressSteps.renders_as seg ProgressSteps.pending.
Proof.
  destruct (progress_segments_by_index 2 4) as (Hlen & Hseg & _); [lia|].
  split; [exact Hlen|].
  destruct (Hseg 3) as (seg & Hl & _ & _ & _ & Hp); [lia|].
  exists seg. split; [exact Hl | apply Hp; lia].
Defined.

(** ** The registration wizard *)

Section Wizard.

Import Register.

Lemma currentField_cases st cf :
  currentField st = Some cf →
  (currentStep st = 0 ∧ field cf = k_name)
  ∨ (currentStep st = 1 ∧ field cf = k_email)
  ∨ (currentStep st = 2 ∧ field cf = k_password)
  ∨ (currentStep st = 3 ∧ field cf = k_confirmPassword).
Proof.
  unfold currentField, index.
  destruct (Z.leb_spec 0 (currentStep st)) as [Hge|]; [|discriminate].
  destruct (Z.to_nat (currentStep st)) as [|[|[|[|k]]]] eqn:Hn;
    cbn; intros [= <-]; cbn; [| | | |discriminate..].
  all: try (left; split; [lia | reflexivity]).
  all: try (right; left; split; [lia | reflexivity]).
  all: try (right; right; left; split; [lia | reflexivity]).
  all: try (right; right; right; split; [lia | reflexivity]).
Qed.

Lemma currentField_Some_range st cf :
  currentField st = Some cf → 0 ≤ currentStep st < 4.
Proof. intros H%currentField_cases. lia. Qed.

Lemma currentField_in_range st :
  0 ≤ currentStep st < 4 → ∃ cf, currentField st = Some cf.
Proof.
  intros H.
  assert (currentStep st = 0 ∨ currentStep st = 1
          ∨ currentStep st = 2 ∨ currentStep st = 3) as Hc by lia.
  unfold currentField.
  destruct Hc as [Hc|[Hc|[Hc|Hc]]]; rewrite Hc; eexists; reflexivity.
Qed.

(** Every message of [validateField] is a non-empty string. *)
Lemma validateField_truthy st fld v msg :
  validateField st fld v = Some msg → truthy msg = true.
Proof.
  destruct fld; cbn [validateField]; intros H; case_match; by inversion H.
Qed.

Lemma steps_length : Z.of_nat (length steps) - 1 = 3.
Proof. reflexivity. Qed.

Lemma handleNext_failure st cf msg :
  currentField st = Some cf →
  validateField st (field cf) (get (formData st) (field cf)) = Some msg →
  handleNext st = Some (setErrors (<[field cf := msg]> (errors st)) st, []).
Proof.
  intros Hcf Hv. unfold handleNext. rewrite Hcf. cbn [mbind option_bind].
  rewrite Hv. by rewrite (validateField_truthy _ _ _ _ Hv).
Qed.

Lemma handleNext_success st cf :
  currentField st = Some cf →
  validateField st (field cf) (get (formData st) (field cf)) = None →
  handleNext st
  = Some (if currentStep st <? 3
          then (setCurrentStep (currentStep st + 1)
                  (setErrors (<[field cf := empty]> (errors st)) st), [])
          else (setErrors (<[field cf := empty]> (errors st)) st, handleSubmit)).
Proof.
  intros Hcf Hv. unfold handleNext. rewrite Hcf. cbn [mbind option_bind].
  rewrite Hv, steps_length. reflexivity.
Qed.

Lemma onChange_Some st cf v :
  currentField st = Some cf →
  onChange v st
  = Some (setErrors (<[field cf := empty]> (errors st))
            (setFormData (set (formData st) (field cf) v) st)).
Proof. intros Hcf. unfold onChange. by rewrite Hcf. Qed.

Lemma run_cons a rest st st' out sts outs :
  handle a st = Some (st', out) →
  run rest st' = Some (sts, outs) →
  run (a :: rest) st = Some (st' :: sts, out ++ outs).
Proof. intros Ha Hr. cbn [run]. rewrite Ha. cbn. rewrite Hr. reflexivity. Qed.

End Wizard.

Section WizardSteps.

Import Register.

Lemma validateField_name st v :
  validateField st k_name v = None ↔ 2 ≤ str_length (trim v).
Proof.
  cbn [validateField].
  destruct (Z.ltb_spec (str_length (trim v)) 2); split; (done || lia).
Qed.

Lemma validateField_password st v :
  validateField st k_password v = None ↔ 8 ≤ str_length v.
Proof.
  cbn [validateField].
  destruct (Z.ltb_spec (str_length v) 8); split; (done || lia).
Qed.

Lemma validateField_email st v :
  validateField st k_email v = None ↔ test emailRegex v = true.
Proof.
  cbn [validateField]. destruct (test emailRegex v); split; done.
Qed.

Lemma validateField_confirmPassword st v :
  validateField st k_confirmPassword v = None ↔ v = password (formData st).
Proof.
  cbn [validateField]. unfold strict_neq.
  case_bool_decide; cbn [negb]; split; done.
Qed.

(** Closes the conjuncts of [wizard_inv] from those of the previous state. *)
Local Ltac inv_conjuncts Hn He Hp :=
  split_and!; try lia; intros; try done;
  first [apply Hn; lia | apply He; lia | apply Hp; lia].

(** What a click on the forward button can do to the step and the fields. *)
Lemma handleNext_inv st st' out :
  handleNext st = Some (st', out) →
  formData st' = formData st
  ∧ 0 ≤ currentStep st < 4
  ∧ (currentStep st' = currentStep st
     ∨ (currentStep st < 3 ∧ currentStep st' = currentStep st + 1
        ∧ ∃ cf, currentField st = Some cf
                ∧ validateField st (field cf) (get (formData st) (field cf)) = None)).
Proof.
  intros H.
  destruct (currentField st) as [cf|] eqn:Hcf;
    [|unfold handleNext in H; rewrite Hcf in H; discriminate].
  pose proof (currentField_Some_range _ _ Hcf) as Hr.
  destruct (validateField st (field cf) (get (formData st) (field cf)))
    as [msg|] eqn:Hv.
  - rewrite (handleNext_failure _ _ _ Hcf Hv) in H. injection H as <- <-.
    split_and!; [done | lia | lia | by left].
  - rewrite (handleNext_success _ _ Hcf Hv) in H.
    destruct (Z.ltb_spec (currentStep st) 3); injection H as <- <-.
    + split_and!; [done | lia | lia |]. right. split_and!; [done | done |].
      exists cf. done.
    + split_and!; [done | lia | lia | by left].
Qed.

Lemma handleNext_preserves st st' out :
  wizard_inv st → handleNext st = Some (st', out) → wizard_inv st'.
Proof.
  intros (Hr & Hn & He & Hp) H.
  apply handleNext_inv in H as (Hfd & _ & [Hs | (Hlt & Hs & cf & Hcf & Hv)]).
  - unfold wizard_inv. rewrite Hfd, Hs. done.
  - unfold wizard_inv. rewrite Hfd, Hs.
    apply currentField_cases in Hcf
      as [[Hc Hf]|[[Hc Hf]|[[Hc Hf]|[Hc Hf]]]]; rewrite Hf in Hv;
      cbn [get] in Hv.
    + apply validateField_name in Hv. inv_conjuncts Hn He Hp.
    + apply validateField_email in Hv. inv_conjuncts Hn He Hp.
    + apply validateField_password in Hv. inv_conjuncts Hn He Hp.
    + lia.
Qed.

Lemma onChange_preserves st st' v :
  wizard_inv st → onChange v st = Some st' → wizard_inv st'.
Proof.
  intros (Hr & Hn & He & Hp) H.
  destruct (currentField st) as [cf|] eqn:Hcf;
    [|unfold onChange in H; rewrite Hcf in H; discriminate].
  rewrite (onChange_Some _ _ _ Hcf) in H. injection H as <-.
  unfold wizard_inv. cbn [currentStep formData setErrors setFormData].
  apply currentField_cases in Hcf
    as [[Hc Hf]|[[Hc Hf]|[[Hc Hf]|[Hc Hf]]]]; rewrite Hf; cbn [set name email password].
  all: inv_conjuncts Hn He Hp.
Qed.

Lemma handleBack_preserves st : wizard_inv st → wizard_inv (handleBack st).
Proof.
  intros (Hr & Hn & He & Hp). unfold handleBack.
  destruct (Z.gtb_spec (currentStep st) 0); [|done].
  unfold wizard_inv. cbn [currentStep formData setCurrentStep].
  inv_conjuncts Hn He Hp.
Qed.

Lemma handle_preserves a st st' out :
  wizard_inv st → handle a st = Some (st', out) → wizard_inv st'.
Proof.
  intros Hinv H. destruct a as [v| | |key|]; cbn [handle] in H.
  - destruct (onChange v st) as [st1|] eqn:Hc; [|discriminate].
    injection H as <- <-. by eapply onChange_preserves.
  - by eapply handleNext_preserves.
  - injection H as <- <-. by apply handleBack_preserves.
  - unfold handleKeyDown in H. case_bool_decide.
    + by eapply handleNext_preserves.
    + by injection H as <- <-.
  - by injection H as <- <-.
Qed.

Lemma wizard_inv_initial : wizard_inv initial.
Proof. unfold wizard_inv. cbn. lia. Qed.

Lemma in_order_wizard_inv st : reachable_in_order st → wizard_inv st.
Proof.
  induction 1 as [|st a st' out _ IH H].
  - apply wizard_inv_initial.
  - by eapply handle_preserves.
Qed.

End WizardSteps.

(** ** The wizard while a panel animates out *)

Section WizardScreen.

Import Register.

Lemma step_of_inj k k' : step_of k = step_of k' → k = k'.
Proof. by destruct k, k'. Qed.

Lemma currentField_step_of st cf :
  currentField st = Some cf → step_of (field cf) = currentStep st.
Proof.
  intros H%currentField_cases.
  destruct H as [[Hc Hf]|[[Hc Hf]|[[Hc Hf]|[Hc Hf]]]]; by rewrite Hf, Hc.
Qed.

(** A handler of the latest render reads the state it writes to. *)
Lemma handle_from_self a st : handle_from a st st = handle a st.
Proof. by destruct a. Qed.

Lemma handleNext_from_self st : handleNext_from st st = handleNext st.
Proof. reflexivity. Qed.

(** What an input on the mounted panel does to the component's state. *)
Inductive outcome (m c : State) : State → list Effect → Prop :=
| outcome_none out : outcome m c c out
| outcome_change cf v :
    currentField m = Some cf →
    outcome m c
      (setErrors (<[field cf := empty]> (errors m))
         (setFormData (set (formData m) (field cf) v) c)) []
| outcome_rejected cf msg :
    currentField m = Some cf →
    validateField m (field cf) (get (formData m) (field cf)) = Some msg →
    outcome m c (setErrors (<[field cf := msg]> (errors m)) c) []
| outcome_advance cf :
    currentField m = Some cf →
    validateField m (field cf) (get (formData m) (field cf)) = None →
    currentStep m < 3 →
    outcome m c
      (setCurrentStep (currentStep m + 1)
         (setErrors (<[field cf := empty]> (errors m)) c)) []
| outcome_submit cf :
    currentField m = Some cf →
    validateField m (field cf) (get (formData m) (field cf)) = None →
    currentStep m = 3 →
    outcome m c (setErrors (<[field cf := empty]> (errors m)) c) handleSubmit
| outcome_back :
    0 < currentStep m →
    outcome m c (setCurrentStep (currentStep m - 1) c) [].

Lemma handleNext_from_outcome m c c' out :
  handleNext_from m c = Some (c', out) → outcome m c c' out.
Proof.
  unfold handleNext_from. intros H.
  destruct (currentField m) as [cf|] eqn:Hcf; [|discriminate].
  pose proof (currentField_Some_range _ _ Hcf) as Hr.
  cbn [mbind option_bind] in H. rewrite steps_length in H.
  destruct (validateField m (field cf) (get (formData m) (field cf)))
    as [msg|] eqn:Hv.
  - rewrite (validateField_truthy _ _ _ _ Hv) in H. injection H as <- <-.
    by eapply outcome_rejected.
  - destruct (Z.ltb_spec (currentStep m) 3); injection H as <- <-.
    + by eapply outcome_advance.
    + eapply outcome_submit; [done | done | lia].
Qed.

Lemma handle_from_outcome a m c c' out :
  handle_from a m c = Some (c', out) → outcome m c c' out.
Proof.
  destruct a as [v| | |key|]; cbn [handle_from]; intros H.
  - unfold onChange_from in H.
    destruct (currentField m) as [cf|] eqn:Hcf; [|discriminate].
    injection H as <- <-. by eapply outcome_change.
  - by apply handleNext_from_outcome.
  - injection H as <- <-. unfold handleBack_from.
    destruct (Z.gtb_spec (currentStep m) 0); [by apply outcome_back|].
    apply outcome_none.
  - unfold handleKeyDown_from in H. case_bool_decide.
    + by apply handleNext_from_outcome.
    + injection H as <- <-. apply outcome_none.
  - injection H as <- <-. apply outcome_none.
Qed.

(** Replacing the errors by those of the panel, with the panel's field
    set, keeps the passed steps cleared. *)
Lemma cleared_insert m cf x bound k :
  passed_errors_cleared m →
  currentField m = Some cf →
  step_of k < bound →
  bound ≤ currentStep m ∨ (bound ≤ currentStep m + 1 ∧ x = empty) →
  (<[field cf := x]> (errors m)) !! k = Some empty.
Proof.
  intros Hm Hcf Hk Hb. pose proof (currentField_step_of _ _ Hcf) as Hstep.
  destruct (decide (field cf = k)) as [<-|Hne].
  - destruct Hb as [?|[_ ->]]; [lia|]. apply lookup_insert_eq.
  - rewrite lookup_insert_ne by done. apply Hm.
    assert (step_of k ≠ step_of (field cf)) by (intros ?%step_of_inj; done).
    lia.
Qed.

Lemma screen_inv_initial : screen_inv (mkScreen initial initial).
Proof.
  unfold screen_inv. cbn [component panel].
  assert (passed_errors_cleared initial) as Hc.
  { intros k Hk. cbn in Hk. destruct k; cbn in Hk; lia. }
  split_and!; try done; cbn; lia.
Qed.

Lemma screen_inv_exitComplete ui : screen_inv ui → screen_inv (exitComplete ui).
Proof.
  intros (Hm & Hc & Hd & Hem & Hec & Hv). unfold screen_inv, exitComplete.
  cbn [component panel]. split_and!; try done; try lia.
Qed.

Local Ltac screen_inv_conjuncts :=
  cbn [currentStep formData errors setErrors setFormData setCurrentStep] in *;
  split_and!; try done; try lia.

Lemma screen_inv_dispatch a ui ui' out :
  screen_inv ui → dispatch a ui = Some (ui', out) → screen_inv ui'.
Proof.
  destruct ui as [c m]. unfold screen_inv, dispatch. cbn [component panel].
  intros (Hm & Hc & Hd & Hem & Hec & Hv) H.
  destruct (handle_from a m c) as [[c' o]|] eqn:Ha; [|discriminate].
  cbn in H. injection H as <- <-. cbn [component panel].
  apply handle_from_outcome in Ha.
  destruct Ha as [o|cf v Hcf|cf msg Hcf Hmsg|cf Hcf Hok Hlt|cf Hcf Hok H3|Hpos];
    cbn [currentStep formData errors setErrors setFormData setCurrentStep].
  - (* nothing changed *)
    destruct (Z.eqb_spec (currentStep c) (currentStep m));
      screen_inv_conjuncts.
  - (* an edit *)
    assert (passed_errors_cleared
              (setErrors (<[field cf:=empty]> (errors m))
                 (setFormData (set (formData m) (field cf) v) c))) as Hc'.
    { intros k Hk. cbn [currentStep errors setErrors setFormData] in *.
      eapply cleared_insert; [done | done | exact Hk |]. right. split; [lia|done]. }
    destruct (Z.eqb_spec (currentStep c) (currentStep m));
      screen_inv_conjuncts.
  - (* a rejected forward click *)
    assert (currentStep c ≤ currentStep m) as Hle.
    { destruct (decide (currentStep c = currentStep m + 1)) as [Heq|]; [|lia].
      rewrite (Hv Heq _ Hcf) in Hmsg. discriminate. }
    assert (passed_errors_cleared (setErrors (<[field cf:=msg]> (errors m)) c))
      as Hc'.
    { intros k Hk. cbn [currentStep errors setErrors] in *.
      eapply cleared_insert; [done | done | exact Hk |]. left. lia. }
    destruct (Z.eqb_spec (currentStep c) (currentStep m));
      screen_inv_conjuncts.
  - (* a forward click that moves on *)
    assert (passed_errors_cleared
              (setCurrentStep (currentStep m + 1)
                 (setErrors (<[field cf:=empty]> (errors m)) c))) as Hc'.
    { intros k Hk. cbn [currentStep errors setErrors setCurrentStep] in *.
      eapply cleared_insert; [done | done | exact Hk |]. right. split; [lia|done]. }
    destruct (Z.eqb_spec (currentStep m + 1) (currentStep m)); [lia|].
    screen_inv_conjuncts.
    intros _ cf' Hcf'. by simplify_eq.
  - (* the submission *)
    assert (passed_errors_cleared (setErrors (<[field cf:=empty]> (errors m)) c))
      as Hc'.
    { intros k Hk. cbn [currentStep errors setErrors] in *.
      eapply cleared_insert; [done | done | exact Hk |]. right. split; [lia|done]. }
    destruct (Z.eqb_spec (currentStep c) (currentStep m));
      screen_inv_conjuncts.
  - (* a back click *)
    assert (passed_errors_cleared (setCurrentStep (currentStep m - 1) c)) as Hc'.
    { intros k Hk. cbn [currentStep errors setCurrentStep] in *. apply Hec. lia. }
    destruct (Z.eqb_spec (currentStep m - 1) (currentStep m)); [lia|].
    screen_inv_conjuncts.
Qed.

Lemma screen_reachable_inv ui : screen_reachable ui → screen_inv ui.
Proof.
  induction 1 as [|ui a ui' out _ IH H|ui _ IH].
  - apply screen_inv_initial.
  - by eapply screen_inv_dispatch.
  - by apply screen_inv_exitComplete.
Qed.

Lemma session_reachable es : ∀ ui ui' out,
  screen_reachable ui → session es ui = Some (ui', out) → screen_reachable ui'.
Proof.
  induction es as [|e es IH]; intros ui ui' out Hui H; cbn [session] in H.
  - by injection H as <- <-.
  - destruct (react e ui) as [[ui1 o1]|] eqn:He; [|discriminate].
    cbn in H. destruct (session es ui1) as [[ui2 o2]|] eqn:Hs; [|discriminate].
    cbn in H. injection H as <- <-. eapply IH; [|exact Hs].
    destruct e as [a|]; cbn [react] in He.
    + by eapply screen_dispatch.
    + injection He as <- <-. by apply screen_exitComplete.
Qed.

Lemma reachable_initial : reachable initial.
Proof. exists (mkScreen initial initial). split; [constructor | done]. Qed.

(** An input handled by the latest render, once the panel has settled. *)
Lemma reachable_handle st a st' out :
  reachable st → handle a st = Some (st', out) → reachable st'.
Proof.
  intros (ui & Hui & <-) H.
  exists (mkScreen st'
            (if currentStep st' =? currentStep (component ui)
             then st' else component ui)).
  split; [|done].
  apply (screen_dispatch (exitComplete ui) a _ out).
  - by apply screen_exitComplete.
  - unfold dispatch, exitComplete. cbn [component panel].
    rewrite handle_from_self, H. reflexivity.
Qed.

Lemma reachable_in_order_reachable st : reachable_in_order st → reachable st.
Proof.
  induction 1 as [|st a st' out _ IH H].
  - apply reachable_initial.
  - by eapply reachable_handle.
Qed.

Lemma reachable_step_range st : reachable st → 0 ≤ currentStep st < 4.
Proof.
  intros (ui & Hui & <-). by destruct (screen_reachable_inv _ Hui) as (_ & ? & _).
Qed.

Lemma reachable_errors_cleared st : reachable st → passed_errors_cleared st.
Proof.
  intros (ui & Hui & <-).
  by destruct (screen_reachable_inv _ Hui) as (_ & _ & _ & _ & ? & _).
Qed.

End WizardScreen.

Section WizardProperties.

Import Register.

Lemma run_reachable acts : ∀ st sts out,
  reachable st → run acts st = Some (sts, out) → Forall reachable sts.
Proof.
  induction acts as [|a acts IH]; intros st sts out Hst H; cbn [run] in H.
  - injection H as <- <-. constructor.
  - destruct (handle a st) as [[st1 o1]|] eqn:Ha; [|discriminate].
    cbn in H. destruct (run acts st1) as [[sts1 o2]|] eqn:Hr; [|discriminate].
    cbn in H. injection H as <- <-.
    assert (reachable st1) by (by eapply reachable_handle).
    constructor; [done | by eapply IH].
Qed.

(** C1. When the active step's field passes its validator, the forward
    button clears that field's error (sets it to the empty string, all
    other entries and every field value kept); below step 3 it adds
    exactly 1 to the step index and calls nothing, at step 3 it keeps the
    index and submits: one [toast], then one [navigate("/")].  A session
    that enters a valid name, a valid email, the password [abcdefgh] and
    the confirmation [abcdefgh], pressing the button after each, goes
    through the steps 0, 1, 2, 3 in order and makes exactly those two
    calls. *)
Theorem advance_on_success (st : State) (cf : Step) (n e : jsstring) :
  currentField st = Some cf →
  validateField st (field cf) (get (formData st) (field cf)) = None →
  validateField initial k_name n = None →
  validateField initial k_email e = None →
  (∃ st' out,
      handleNext st = Some (st', out)
      ∧ errors st' = <[field cf := empty]> (errors st)
      ∧ errors st' !! field cf = Some empty
      ∧ formData st' = formData st
      ∧ (currentStep st < 3 → currentStep st' = currentStep st + 1 ∧ out = [])
      ∧ (currentStep st = 3 →
         currentStep st' = 3
         ∧ out = [toast (lit "Account created!") (lit "Welcome to Meridian AI.");
                  navigate (lit "/")]))
  ∧ ∃ sts,
      run (registration n e) initial
      = Some (sts, [toast (lit "Account created!") (lit "Welcome to Meridian AI.");
                    navigate (lit "/")])
      ∧ currentStep <$> (initial :: sts) = [0; 0; 1; 1; 2; 2; 3; 3; 3].
Proof.
  intros Hcf Hv Hn He. split.
  - rewrite (handleNext_success _ _ Hcf Hv).
    destruct (Z.ltb_spec (currentStep st) 3) as [Hlt|Hge]; eexists _, _;
      (split; [reflexivity|]);
      cbn [errors formData currentStep setErrors setCurrentStep].
    + split_and!; [done | apply lookup_insert_eq | done | done | lia].
    + split_and!; [done | apply lookup_insert_eq | done | lia | done].
  - unfold registration.
    cut (∃ sts out,
            run (registration n e) initial = Some (sts, out)
            ∧ out = handleSubmit
            ∧ currentStep <$> (initial :: sts) = [0; 0; 1; 1; 2; 2; 3; 3; 3]).
    { intros (sts & out & Hrun & -> & Hsteps). by exists sts. }
    unfold registration. eexists _, _. split; [|split].
    + eapply run_cons;
        [cbn [handle]; by erewrite onChange_Some by reflexivity|].
      eapply run_cons;
        [cbn [handle]; erewrite handleNext_success; [reflexivity | reflexivity |];
         cbn [field get set formData setErrors setFormData name];
         by apply validateField_name, (validateField_name initial)|].
      cbn [Z.ltb Z.compare currentStep setErrors setFormData].
      eapply run_cons;
        [cbn [handle]; by erewrite onChange_Some by reflexivity|].
      eapply run_cons;
        [cbn [handle]; erewrite handleNext_success; [reflexivity | reflexivity |];
         cbn [field get set formData setErrors setFormData setCurrentStep email];
         by apply validateField_email, (validateField_email initial)|].
      cbn [Z.ltb Z.compare Z.add currentStep setErrors setFormData setCurrentStep].
      eapply run_cons;
        [cbn [handle]; by erewrite onChange_Some by reflexivity|].
      eapply run_cons;
        [cbn [handle]; erewrite handleNext_success; reflexivity|].
      eapply run_cons;
        [cbn [handle]; by erewrite onChange_Some by reflexivity|].
      eapply run_cons;
        [cbn [handle]; erewrite handleNext_success; reflexivity|].
      reflexivity.
    + reflexivity.
    + reflexivity.
Qed.

Lemma advance_on_success_witness :
  ∃ sts,
    run (registration (lit "Al") (lit "a@b.co")) initial
    = Some (sts, [toast (lit "Account created!") (lit "Welcome to Meridian AI.");
                  navigate (lit "/")])
    ∧ currentStep <$> (initial :: sts) = [0; 0; 1; 1; 2; 2; 3; 3; 3].
Proof.
  apply (advance_on_success
           (mkState 3 (mkFormData (lit "Al") (lit "a@b.co") (lit "abcdefgh")
                         (lit "abcdefgh")) ∅)
           (mkStep k_confirmPassword (lit "Confirm your password")
              (lit "Re-enter your password") (lit "password"))
           (lit "Al") (lit "a@b.co")); reflexivity.
Defined.

(** C3. When the validator of the active step's field fails, the forward
    button stores the message under that field and changes neither the
    step index nor any field value, and calls nothing.  From step 0 with
    the name [A] (trimmed length 1) the error is "Name must be at least 2
    characters" and the step stays 0.  The name validator fails exactly
    when the trimmed length is below 2, the password validator exactly
    when the length is below 8. *)
Theorem advance_on_failure (st : State) (cf : Step) (msg : jsstring) :
  currentField st = Some cf →
  validateField st (field cf) (get (formData st) (field cf)) = Some msg →
  (∃ st',
      handleNext st = Some (st', [])
      ∧ errors st' = <[field cf := msg]> (errors st)
      ∧ errors st' !! field cf = Some msg
      ∧ currentStep st' = currentStep st
      ∧ formData st' = formData st)
  ∧ str_length (trim (lit "A")) = 1
  ∧ (∀ em pw cpw errs,
        handleNext (mkState 0 (mkFormData (lit "A") em pw cpw) errs)
        = Some (mkState 0 (mkFormData (lit "A") em pw cpw)
                  (<[k_name := lit "Name must be at least 2 characters"]> errs),
                []))
  ∧ (∀ st0 v, is_Some (validateField st0 k_name v) ↔ str_length (trim v) < 2)
  ∧ (∀ st0 v, validateField st0 k_name v
              = if bool_decide (str_length (trim v) < 2)
                then Some (lit "Name must be at least 2 characters") else None)
  ∧ (∀ st0 v, is_Some (validateField st0 k_password v) ↔ str_length v < 8)
  ∧ (∀ st0 v, validateField st0 k_password v
              = if bool_decide (str_length v < 8)
                then Some (lit "Password must be at least 8 characters") else None).
Proof.
  intros Hcf Hv. split_and!.
  - rewrite (handleNext_failure _ _ _ Hcf Hv). eexists. split; [reflexivity|].
    cbn [errors formData currentStep setErrors].
    split_and!; [done | apply lookup_insert_eq | done | done].
  - reflexivity.
  - intros em pw cpw errs. reflexivity.
  - intros st0 v. cbn [validateField].
    destruct (Z.ltb_spec (str_length (trim v)) 2); split;
      [intros; lia | eauto | intros [? [=]] | intros; lia].
  - intros st0 v. cbn [validateField].
    destruct (Z.ltb_spec (str_length (trim v)) 2); case_bool_decide; (done || lia).
  - intros st0 v. cbn [validateField].
    destruct (Z.ltb_spec (str_length v) 8); split;
      [intros; lia | eauto | intros [? [=]] | intros; lia].
  - intros st0 v. cbn [validateField].
    destruct (Z.ltb_spec (str_length v) 8); case_bool_decide; (done || lia).
Qed.

Lemma advance_on_failure_witness :
  ∃ st',
    handleNext (mkState 2 (mkFormData (lit "Al") (lit "a@b.co") (lit "short") empty) ∅)
    = Some (st', [])
    ∧ errors st' !! k_password = Some (lit "Password must be at least 8 characters")
    ∧ currentStep st' = 2.
Proof.
  destruct (advance_on_failure
              (mkState 2 (mkFormData (lit "Al") (lit "a@b.co") (lit "short") empty) ∅)
              (mkStep k_password (lit "Create a secure password")
                 (lit "Min. 8 characters") (lit "password"))
              (lit "Password must be at least 8 characters"))
    as [(st' & Hn & _ & Herr & Hstep & _) _]; [reflexivity | reflexivity |].
  exists st'. split; [exact Hn | split; [exact Herr | exact Hstep]].
Defined.

(** C4. The confirm-password validator compares its value with the
    password field of the state it is run in: it fails exactly when the two
    differ, the message then being "Passwords do not match"; at step 3 with
    a confirmation that differs from the password the forward button stores
    that message, keeps the step at 3 and calls nothing. *)
Theorem confirm_password_must_equal_password :
  ∀ (st : State) (v : jsstring),
    (is_Some (validateField st k_confirmPassword v) ↔ v ≠ password (formData st))
    ∧ (v ≠ password (formData st) →
       validateField st k_confirmPassword v = Some (lit "Passwords do not match"))
    ∧ (v = password (formData st) → validateField st k_confirmPassword v = None)
    ∧ (currentStep st = 3 →
       confirmPassword (formData st) ≠ password (formData st) →
       ∃ st',
         handleNext st = Some (st', [])
         ∧ currentStep st' = 3
         ∧ formData st' = formData st
         ∧ errors st'
           = <[k_confirmPassword := lit "Passwords do not match"]> (errors st)).
Proof.
  intros st v.
  assert (∀ w, w ≠ password (formData st) →
               validateField st k_confirmPassword w
               = Some (lit "Passwords do not match")) as Hne.
  { intros w Hw. cbn [validateField]. unfold strict_neq.
    by case_bool_decide. }
  split_and!.
  - split.
    + intros [m Hm] ->.
      by rewrite (proj2 (validateField_confirmPassword st _) eq_refl) in Hm.
    + intros H. rewrite Hne by done. eauto.
  - apply Hne.
  - apply validateField_confirmPassword.
  - intros Hstep Hdiff.
    assert (currentField st
            = Some (mkStep k_confirmPassword (lit "Confirm your password")
                      (lit "Re-enter your password") (lit "password"))) as Hcf.
    { unfold currentField. by rewrite Hstep. }
    rewrite (handleNext_failure _ _ _ Hcf (Hne _ Hdiff)).
    eexists. split; [reflexivity|]. by cbn.
Qed.

(** C5. The back button only moves the step index: it subtracts 1 from an
    index above 0 and leaves index 0 as it is; whatever the fields hold,
    valid or not, it returns every field value and every error entry as
    they were and calls nothing.  From step 2 the result is step 1 with
    the same fields and errors. *)
Theorem retreat_only_decrements :
  ∀ st : State,
    formData (handleBack st) = formData st
    ∧ errors (handleBack st) = errors st
    ∧ handle ClickBack st = Some (handleBack st, [])
    ∧ (0 < currentStep st → currentStep (handleBack st) = currentStep st - 1)
    ∧ (currentStep st = 0 → handleBack st = st)
    ∧ (currentStep st = 2 → handleBack st = mkState 1 (formData st) (errors st)).
Proof.
  intros st. unfold handleBack.
  destruct (Z.gtb_spec (currentStep st) 0) as [Hgt|Hle];
    cbn [handle formData errors currentStep setCurrentStep].
  - split_and!; [done | done | | done | lia |].
    + unfold handleBack. by destruct (Z.gtb_spec (currentStep st) 0); [|lia].
    + intros ->. reflexivity.
  - split_and!; [done | done | | lia | done | lia].
    unfold handleBack. by destruct (Z.gtb_spec (currentStep st) 0); [lia|].
Qed.

(** C9. In every state the wizard reaches from its initial state by field
    edits, forward and back clicks and key presses, the step index is at
    least 0 and below 4. *)
Theorem wizard_step_in_range (st : State) :
  reachable st → 0 ≤ currentStep st < 4.
Proof. apply reachable_step_range. Qed.

Lemma wizard_step_in_range_witness :
  0 ≤ currentStep (mkState 1 (mkFormData (lit "Al") empty empty empty)
                     (<[k_name := empty]> ∅)) < 4.
Proof.
  apply wizard_step_in_range.
  eapply (reachable_handle _ ClickNext);
    [eapply (reachable_handle _ (Change (lit "Al"))); [apply reachable_initial|] |];
    vm_compute; reflexivity.
Defined.

(** C10. The invariant "a passed step holds a valid value" is what the
    per-step validation aims at, and the component breaks it: the name panel
    still takes edits while it animates out after a forward click, and
    nothing validates them.  Entering [Al], pressing Continue and cutting
    the name to [A] before the panel is gone leaves the wizard at step 1
    with a name of trimmed length 1; going on from there, each panel waited
    for, the registration is submitted with that name. *)
Theorem exiting_panel_edits_passed_name :
  (∃ m, session cut_name_events (mkScreen initial initial)
        = Some (mkScreen cut_name_state m, []))
  ∧ reachable cut_name_state
  ∧ currentStep cut_name_state = 1
  ∧ str_length (trim (name (formData cut_name_state))) = 1
  ∧ (∃ ui,
        session (cut_name_events ++ remaining_steps_events)
          (mkScreen initial initial)
        = Some (ui, [toast (lit "Account created!") (lit "Welcome to Meridian AI.");
                     navigate (lit "/")])
        ∧ currentStep (component ui) = 3
        ∧ name (formData (component ui)) = lit "A").
Proof.
  assert (∃ m, session cut_name_events (mkScreen initial initial)
               = Some (mkScreen cut_name_state m, [])) as Hcut.
  { eexists. vm_compute. reflexivity. }
  split_and!.
  - exact Hcut.
  - destruct Hcut as [m Hm]. exists (mkScreen cut_name_state m).
    split; [|reflexivity].
    eapply session_reachable; [apply screen_initial | exact Hm].
  - reflexivity.
  - reflexivity.
  - eexists. split; [vm_compute; reflexivity|]. split; reflexivity.
Qed.

End WizardProperties.


(** * Further properties *)

(** ** White space and [trim] *)

Lemma trimStart_whitespace a b :
  Forall (λ c, isWhiteSpace c = true) a → trimStart (a ++ b) = trimStart b.
Proof. induction 1 as [|c a Hc _ IH]; [done|]. cbn. by rewrite Hc. Qed.

Lemma trimStart_all_whitespace a :
  Forall (λ c, isWhiteSpace c = true) a → trimStart a = [].
Proof. intros H. rewrite <- (app_nil_r a). by rewrite trimStart_whitespace. Qed.

Lemma trimStart_nil_inv s :
  trimStart s = [] → Forall (λ c, isWhiteSpace c = true) s.
Proof.
  induction s as [|c s IH]; [constructor|]. cbn.
  destruct (isWhiteSpace c) eqn:Hc; [|discriminate]. intros H. constructor; auto.
Qed.

Lemma trimStart_app_nonempty s b :
  trimStart s ≠ [] → trimStart (s ++ b) = trimStart s ++ b.
Proof.
  induction s as [|c s IH]; [done|]. cbn.
  destruct (isWhiteSpace c); [exact IH | done].
Qed.

Lemma trimEnd_whitespace s b :
  Forall (λ c, isWhiteSpace c = true) b → trimEnd (s ++ b) = trimEnd s.
Proof.
  intros Hb. unfold trimEnd. rewrite rev_app_distr, trimStart_whitespace; [done|].
  by apply List.Forall_rev.
Qed.

(** White space around a string does not change what [trim] returns. *)
Lemma trim_surrounding_whitespace a s b :
  Forall (λ c, isWhiteSpace c = true) a →
  Forall (λ c, isWhiteSpace c = true) b →
  trim (a ++ s ++ b) = trim s.
Proof.
  intros Ha Hb. unfold trim. rewrite trimStart_whitespace by done.
  destruct (trimStart s) as [|c t] eqn:Hs.
  - rewrite trimStart_all_whitespace; [done|].
    apply Forall_app. split; [by apply trimStart_nil_inv | done].
  - rewrite trimStart_app_nonempty by (by rewrite Hs).
    rewrite Hs. by apply trimEnd_whitespace.
Qed.

Lemma trimStart_length s : (length (trimStart s) ≤ length s)%nat.
Proof.
  induction s as [|c s IH]; [done|]. cbn. destruct (isWhiteSpace c); cbn; lia.
Qed.

Lemma trim_length s : str_length (trim s) ≤ str_length s.
Proof.
  unfold str_length, trim, trimEnd. rewrite length_rev.
  pose proof (trimStart_length (rev (trimStart s))) as H1.
  rewrite length_rev in H1. pose proof (trimStart_length s). lia.
Qed.

Lemma truthy_false_iff (s : jsstring) : truthy s = false ↔ s = empty.
Proof. destruct s; split; done. Qed.

Lemma paragraph_if_None (t : jsstring) : paragraph_if (Some t) = None ↔ t = empty.
Proof. destruct t; split; done. Qed.

(** ** The sign-in form, as a whole *)

Lemma Login_password_error_empty fd :
  Login.password_error (Login.newErrors fd) = empty
  ↔ 8 ≤ str_length (Login.password fd).
Proof.
  destruct fd as [e p]. cbn [Login.password]. split.
  - intros H. destruct (decide (8 ≤ str_length p)) as [|Hlt]; [done|].
    destruct p as [|c p]; [discriminate H|].
    rewrite Login_password_error_short in H; [discriminate H | done | lia].
  - apply Login_password_error_long.
Qed.

Lemma Login_validateForm_true st :
  (Login.validateForm st).2 = true ↔ signin_valid (Login.formData st).
Proof.
  unfold Login.validateForm, signin_valid. cbn [snd].
  rewrite andb_true_iff, !negb_true_iff, !truthy_false_iff.
  by rewrite Login_email_error_empty, Login_password_error_empty.
Qed.

(** X1. Submitting the sign-in form notifies and navigates exactly when the
    email matches the pattern and the password has at least 8 characters:
    then both errors become empty and the calls are one [toast] followed by
    [navigate("/")]; otherwise nothing is called.  The fields are never
    changed, and after the submission a message shows under a field exactly
    when that field is invalid. *)
Theorem signin_submits_iff_valid :
  ∀ st : Login.State,
    Login.formData (Login.handleSubmit st).1 = Login.formData st
    ∧ (signin_valid (Login.formData st) →
       Login.handleSubmit st
       = (Login.mkState (Login.formData st) (Login.mkErrors empty empty),
          [toast (lit "Welcome back!")
                 (lit "You've successfully signed in to Meridian AI.");
           navigate (lit "/")]))
    ∧ (¬ signin_valid (Login.formData st) → (Login.handleSubmit st).2 = [])
    ∧ (Login.emailMessage (Login.render (Login.handleSubmit st).1) = None
       ↔ matches_email_pattern (Login.email (Login.formData st)))
    ∧ (Login.passwordMessage (Login.render (Login.handleSubmit st).1) = None
       ↔ 8 ≤ str_length (Login.password (Login.formData st))).
Proof.
  intros st.
  assert (Login.handleSubmit st
          = (Login.setErrors (Login.newErrors (Login.formData st)) st,
             if (Login.validateForm st).2
             then [toast (lit "Welcome back!")
                         (lit "You've successfully signed in to Meridian AI.");
                   navigate (lit "/")]
             else [])) as Heq.
  { unfold Login.handleSubmit.
    destruct (Login.validateForm st) as [st' ok] eqn:Hv.
    unfold Login.validateForm in Hv. injection Hv as <- <-. cbn [snd].
    by destruct (_ && _). }
  rewrite Heq. cbn [fst snd]. split_and!.
  - done.
  - intros Hvalid. pose proof Hvalid as [He Hp].
    rewrite (proj2 (Login_validateForm_true st) Hvalid).
    unfold Login.setErrors. rewrite Login_newErrors_eta.
    rewrite (proj2 (Login_email_error_empty _) He).
    by rewrite (proj2 (Login_password_error_empty _) Hp).
  - intros Hinvalid. destruct (Login.validateForm st).2 eqn:Hok; [|done].
    by apply Login_validateForm_true in Hok.
  - cbn [Login.render Login.emailMessage Login.errors Login.setErrors].
    by rewrite paragraph_if_None, Login_email_error_empty.
  - cbn [Login.render Login.passwordMessage Login.errors Login.setErrors].
    by rewrite paragraph_if_None, Login_password_error_empty.
Qed.

(** X2. Editing a field of the sign-in form does not validate anything: it
    stores the value, removes the message under that field and leaves the
    other field and its message alone, whatever the value.  The two edits
    commute, and a submission after them sees only the values typed. *)
Theorem signin_edit_clears_own_message :
  ∀ (st : Login.State) (e p : jsstring),
    Login.emailMessage (Login.render (Login.onChangeEmail e st)) = None
    ∧ Login.emailValue (Login.render (Login.onChangeEmail e st)) = e
    ∧ Login.passwordMessage (Login.render (Login.onChangeEmail e st))
      = Login.passwordMessage (Login.render st)
    ∧ Login.passwordValue (Login.render (Login.onChangeEmail e st))
      = Login.passwordValue (Login.render st)
    ∧ Login.passwordMessage (Login.render (Login.onChangePassword p st)) = None
    ∧ Login.passwordValue (Login.render (Login.onChangePassword p st)) = p
    ∧ Login.emailMessage (Login.render (Login.onChangePassword p st))
      = Login.emailMessage (Login.render st)
    ∧ Login.emailValue (Login.render (Login.onChangePassword p st))
      = Login.emailValue (Login.render st)
    ∧ Login.onChangeEmail e (Login.onChangePassword p st)
      = Login.onChangePassword p (Login.onChangeEmail e st)
    ∧ Login.handleSubmit (Login.onChangeEmail e (Login.onChangePassword p st))
      = Login.handleSubmit
          (Login.mkState (Login.mkFormData e p) (Login.mkErrors empty empty)).
Proof. intros st e p. split_and!; reflexivity. Qed.

(** X3. The two forms agree on credentials: an email and a password pass
    the wizard's validators for steps 1 and 2 exactly when the sign-in form
    validates them. *)
Theorem wizard_credentials_pass_signin :
  ∀ (st : Register.State) (errs : Login.Errors) (e p : jsstring),
    (Register.validateField st Register.k_email e = None
     ∧ Register.validateField st Register.k_password p = None)
    ↔ (Login.validateForm (Login.mkState (Login.mkFormData e p) errs)).2 = true.
Proof.
  intros st errs e p.
  rewrite Login_validateForm_true, Register_email_valid. unfold signin_valid.
  cbn [Login.formData Login.email Login.password Register.validateField].
  destruct (Z.ltb_spec (str_length p) 8); split; intros [He Hp];
    (split; [done|]); (done || lia).
Qed.

(** ** What the validators let through *)

Lemma email_part_no_at u :
  Forall email_part_char u → filter (λ c, c = 64%N) u = [].
Proof.
  induction 1 as [|c u [_ Hc] _ IH]; [done|].
  by rewrite filter_cons_False.
Qed.

Lemma email_part_no_whitespace u :
  Forall email_part_char u → Forall (λ c, isWhiteSpace c = false) u.
Proof. intros H. eapply Forall_impl; [exact H|]. by intros c [? _]. Qed.

Lemma email_part_length u : email_part u → (1 ≤ length u)%nat.
Proof. intros [Hne _]. destruct u; [done | cbn; lia]. Qed.

(** X4. An email that either form accepts holds exactly one at sign, no
    white space anywhere (it is not trimmed), a dot, and at least 5 code
    units. *)
Theorem accepted_email_shape (st : Register.State) (pw s : jsstring) :
  Register.validateField st Register.k_email s = None
  ∨ Login.email_error (Login.newErrors (Login.mkFormData s pw)) = empty →
  count_at s = 1%nat
  ∧ Forall (λ c, isWhiteSpace c = false) s
  ∧ 46%N ∈ s
  ∧ 5 ≤ str_length s.
Proof.
  intros H.
  assert (matches_email_pattern s) as (l & d & t & -> & Hl & Hd & Ht).
  { destruct H as [H|H]; [by apply (Register_email_valid st)|].
    by apply Login_email_error_empty in H. }
  pose proof (email_part_length _ Hl). pose proof (email_part_length _ Hd).
  pose proof (email_part_length _ Ht).
  destruct Hl as [_ Hl], Hd as [_ Hd], Ht as [_ Ht].
  split_and!.
  - unfold count_at.
    rewrite filter_app, filter_cons_True, filter_app by done.
    rewrite filter_cons_False by done.
    by rewrite !email_part_no_at by done.
  - apply Forall_app. split; [by apply email_part_no_whitespace|].
    constructor; [done|]. apply Forall_app.
    split; [by apply email_part_no_whitespace|].
    constructor; [done | by apply email_part_no_whitespace].
  - rewrite elem_of_app, elem_of_cons, elem_of_app, elem_of_cons. auto.
  - unfold str_length. rewrite length_app. cbn [length]. rewrite length_app.
    cbn [length]. lia.
Qed.

Lemma accepted_email_shape_witness :
  count_at (lit "a@b.co") = 1%nat
  ∧ Forall (λ c, isWhiteSpace c = false) (lit "a@b.co")
  ∧ 46%N ∈ lit "a@b.co"
  ∧ 5 ≤ str_length (lit "a@b.co").
Proof.
  apply (accepted_email_shape Register.initial empty (lit "a@b.co")).
  left. reflexivity.
Defined.

(** X5. The name validator looks at the trimmed name only: white space before
    and after a name never changes its verdict, a name made of white space
    alone is rejected however long it is, and so is every name of fewer than
    2 code units. *)
Theorem name_validator_ignores_surrounding_whitespace
  (st : Register.State) (a v b : jsstring) :
  Forall (λ c, isWhiteSpace c = true) a →
  Forall (λ c, isWhiteSpace c = true) b →
  Register.validateField st Register.k_name (a ++ v ++ b)
  = Register.validateField st Register.k_name v
  ∧ Register.validateField st Register.k_name a
    = Some (lit "Name must be at least 2 characters")
  ∧ (str_length v < 2 →
     Register.validateField st Register.k_name v
     = Some (lit "Name must be at least 2 characters")).
Proof.
  intros Ha Hb. cbn [Register.validateField]. split_and!.
  - by rewrite trim_surrounding_whitespace.
  - unfold trim. by rewrite trimStart_all_whitespace.
  - intros Hv. pose proof (trim_length v).
    by destruct (Z.ltb_spec (str_length (trim v)) 2); [|lia].
Qed.

Lemma name_validator_ignores_surrounding_whitespace_witness :
  Register.validateField Register.initial Register.k_name (lit "  Al ")
  = Register.validateField Register.initial Register.k_name (lit "Al").
Proof.
  apply (name_validator_ignores_surrounding_whitespace
           Register.initial (lit "  ") (lit "Al") (lit " "));
    repeat constructor.
Defined.

(** ** The wizard, as a whole *)

Section WizardFurther.

Import Register.

Lemma currentField_is_Some st :
  is_Some (currentField st) ↔ 0 ≤ currentStep st < 4.
Proof.
  split.
  - intros [cf H]. by eapply currentField_Some_range.
  - intros H. destruct (currentField_in_range _ H) as [cf Hcf]. eauto.
Qed.

Lemma get_set_eq fd k v : get (set fd k v) k = v.
Proof. by destruct k. Qed.

Lemma get_set_ne fd k k' v : k ≠ k' → get (set fd k v) k' = get fd k'.
Proof. by destruct k, k'. Qed.

(** The three outcomes of a click on the forward button. *)
Lemma handleNext_outcome st st' out :
  handleNext st = Some (st', out) →
  ∃ cf,
    currentField st = Some cf
    ∧ ((∃ msg, validateField st (field cf) (get (formData st) (field cf)) = Some msg
               ∧ st' = setErrors (<[field cf := msg]> (errors st)) st ∧ out = [])
       ∨ (validateField st (field cf) (get (formData st) (field cf)) = None
          ∧ currentStep st < 3
          ∧ st' = setCurrentStep (currentStep st + 1)
                    (setErrors (<[field cf := empty]> (errors st)) st)
          ∧ out = [])
       ∨ (validateField st (field cf) (get (formData st) (field cf)) = None
          ∧ currentStep st = 3
          ∧ st' = setErrors (<[field cf := empty]> (errors st)) st
          ∧ out = handleSubmit)).
Proof.
  intros H.
  destruct (currentField st) as [cf|] eqn:Hcf;
    [|unfold handleNext in H; rewrite Hcf in H; discriminate].
  pose proof (currentField_Some_range _ _ Hcf) as Hr.
  exists cf. split; [done|].
  destruct (validateField st (field cf) (get (formData st) (field cf)))
    as [msg|] eqn:Hv.
  - rewrite (handleNext_failure _ _ _ Hcf Hv) in H. injection H as <- <-.
    left. by exists msg.
  - rewrite (handleNext_success _ _ Hcf Hv) in H.
    destruct (Z.ltb_spec (currentStep st) 3); injection H as <- <-.
    + right; left. done.
    + right; right. split_and!; (done || lia).
Qed.

(** A reachable state the examples use: the name [Al] entered and passed. *)
Lemma reachable_after_name :
  reachable (mkState 1 (mkFormData (lit "Al") empty empty empty)
               (<[k_name := empty]> ∅)).
Proof.
  eapply (reachable_handle _ ClickNext);
    [eapply (reachable_handle _ (Change (lit "Al"))); [apply reachable_initial|] |];
    vm_compute; reflexivity.
Defined.

(** X6. In every reachable state, each field bound to a step before the
    current one has its error recorded as the empty string: no message is
    pending for a step already passed. *)
Theorem passed_steps_have_no_error (st : State) :
  reachable st →
  ∀ k, step_of k < currentStep st → errors st !! k = Some empty.
Proof. apply reachable_errors_cleared. Qed.

Lemma passed_steps_have_no_error_witness :
  errors (mkState 1 (mkFormData (lit "Al") empty empty empty)
            (<[k_name := empty]> ∅)) !! k_name = Some empty.
Proof.
  apply (passed_steps_have_no_error _ reachable_after_name k_name).
  cbn. lia.
Defined.

Lemma handleNext_after_handleBack (st : State) (cf : Step) :
  0 < currentStep st < 4 →
  currentField (handleBack st) = Some cf →
  validateField (handleBack st) (field cf) (get (formData st) (field cf)) = None →
  errors st !! field cf = Some empty →
  handleNext (handleBack st) = Some (st, []).
Proof.
  intros Hr Hcf Hv Herr.
  assert (handleBack st = setCurrentStep (currentStep st - 1) st) as Hback.
  { unfold handleBack. by destruct (Z.gtb_spec (currentStep st) 0); [|lia]. }
  rewrite Hback in *.
  rewrite (handleNext_success _ _ Hcf Hv).
  destruct st as [c fd er]. cbn [currentStep formData errors setCurrentStep] in *.
  destruct (Z.ltb_spec (c - 1) 3); [|lia].
  unfold setCurrentStep, setErrors. cbn [currentStep formData errors].
  rewrite insert_id by done.
  by replace (c - 1 + 1) with c by lia.
Qed.

(** X7. From a state past step 0 in which the field of the previous step
    passes its validator and has the empty string as its error entry, a
    back click followed by a forward click on the panel gone back to
    returns the very same state (step, fields and errors) and calls
    nothing. *)
Theorem back_then_next_is_identity (st : State) (cf : Step) :
  0 < currentStep st < 4 →
  currentField (handleBack st) = Some cf →
  validateField (handleBack st) (field cf) (get (formData st) (field cf)) = None →
  errors st !! field cf = Some empty →
  handleNext (handleBack st) = Some (st, []).
Proof. apply handleNext_after_handleBack. Qed.

Lemma back_then_next_is_identity_witness :
  handleNext (handleBack (mkState 1 (mkFormData (lit "Al") empty empty empty)
                            (<[k_name := empty]> ∅)))
  = Some (mkState 1 (mkFormData (lit "Al") empty empty empty)
            (<[k_name := empty]> ∅), []).
Proof.
  apply (back_then_next_is_identity _
           (mkStep k_name (lit "What's your full name?")
              (lit "Enter your full name") (lit "text")));
    [cbn; lia | reflexivity | reflexivity | reflexivity].
Defined.

End WizardFurther.

Section WizardView.

Import Register.

Lemma render_Some st cf :
  currentField st = Some cf →
  render st
  = Some (mkView
            (ProgressSteps.ProgressSteps (currentStep st) 4)
            (label cf) (type cf) (placeholder cf)
            (get (formData st) (field cf))
            (paragraph_if (errors st !! field cf))
            (currentStep st >? 0)
            (if currentStep st =? 3
             then lit "Finish Registration" else lit "Continue")).
Proof. intros Hcf. unfold render. by rewrite Hcf. Qed.

(** X8. Whichever panel handles an input, the mounted one or one that is
    animating out, the wizard calls nothing, or [navigate("/login")] for the
    "Sign in" button, or exactly [toast] then [navigate("/")]; and it makes
    those two calls only on a forward click or Enter in a panel rendered at
    step 3 whose confirmation equals its password.  The submission changes
    neither the fields nor the step. *)
Theorem wizard_calls_and_submission_guard
  (ui ui' : Screen) (a : Action) (out : list Effect) :
  dispatch a ui = Some (ui', out) →
  out = []
  ∨ (a = ClickSignIn ∧ out = [navigate (lit "/login")]
     ∧ component ui' = component ui)
  ∨ (out = [toast (lit "Account created!") (lit "Welcome to Meridian AI.");
            navigate (lit "/")]
     ∧ (a = ClickNext ∨ a = KeyDown (lit "Enter"))
     ∧ currentStep (panel ui) = 3
     ∧ confirmPassword (formData (panel ui)) = password (formData (panel ui))
     ∧ formData (component ui') = formData (component ui)
     ∧ currentStep (component ui') = currentStep (component ui)).
Proof.
  destruct ui as [c m]. unfold dispatch. cbn [component panel]. intros H.
  destruct (handle_from a m c) as [[c' o]|] eqn:Ha; [|discriminate].
  cbn in H. injection H as <- <-. cbn [component].
  assert (∀ b, (b = ClickNext ∨ b = KeyDown (lit "Enter")) →
               handleNext_from m c = Some (c', o) →
               o = []
               ∨ (o = handleSubmit ∧ (b = ClickNext ∨ b = KeyDown (lit "Enter"))
                  ∧ currentStep m = 3
                  ∧ confirmPassword (formData m) = password (formData m)
                  ∧ formData c' = formData c
                  ∧ currentStep c' = currentStep c)) as Hnext.
  { intros b Hb Hh. unfold handleNext_from in Hh.
    destruct (currentField m) as [cf|] eqn:Hcf; [|discriminate].
    pose proof (currentField_Some_range _ _ Hcf) as Hr.
    pose proof (currentField_step_of _ _ Hcf) as Hstep.
    cbn [mbind option_bind] in Hh. rewrite steps_length in Hh.
    destruct (validateField m (field cf) (get (formData m) (field cf)))
      as [msg|] eqn:Hv.
    - rewrite (validateField_truthy _ _ _ _ Hv) in Hh. injection Hh as <- <-.
      by left.
    - destruct (Z.ltb_spec (currentStep m) 3); injection Hh as <- <-;
        [by left|].
      right. destruct (field cf) eqn:Hf; cbn [step_of] in Hstep; try lia.
      cbn [get] in Hv. apply validateField_confirmPassword in Hv.
      split_and!; (done || lia). }
  destruct a as [v| | |key|]; cbn [handle_from] in Ha.
  - destruct (onChange_from v m c) as [c1|]; [|discriminate].
    injection Ha as <- <-. by left.
  - destruct (Hnext ClickNext) as [?|?]; auto.
  - injection Ha as <- <-. by left.
  - unfold handleKeyDown_from in Ha. case_bool_decide as Hkey.
    + subst key. destruct (Hnext (KeyDown (lit "Enter"))) as [?|?]; auto.
    + injection Ha as <- <-. by left.
  - injection Ha as <- <-. right. left. done.
Qed.

Lemma wizard_calls_and_submission_guard_witness :
  currentStep
    (mkState 3 (mkFormData (lit "A") (lit "a@b.co") (lit "abcdefgh")
                  (lit "abcdefgh")) ∅) = 3
  ∧ confirmPassword
      (mkFormData (lit "A") (lit "a@b.co") (lit "abcdefgh") (lit "abcdefgh"))
    = password
        (mkFormData (lit "A") (lit "a@b.co") (lit "abcdefgh") (lit "abcdefgh")).
Proof.
  destruct (wizard_calls_and_submission_guard
              (mkScreen
                 (mkState 3 (mkFormData (lit "A") (lit "a@b.co") (lit "abcdefgh")
                               (lit "abcdefgh")) ∅)
                 (mkState 3 (mkFormData (lit "A") (lit "a@b.co") (lit "abcdefgh")
                               (lit "abcdefgh")) ∅))
              (mkScreen
                 (mkState 3 (mkFormData (lit "A") (lit "a@b.co") (lit "abcdefgh")
                               (lit "abcdefgh")) (<[k_confirmPassword := empty]> ∅))
                 (mkState 3 (mkFormData (lit "A") (lit "a@b.co") (lit "abcdefgh")
                               (lit "abcdefgh")) (<[k_confirmPassword := empty]> ∅)))
              ClickNext handleSubmit)
    as [Hnil | [(Hsign & _) | (_ & _ & Hstep & Hconfirm & _)]].
  - vm_compute. reflexivity.
  - discriminate Hnil.
  - discriminate Hsign.
  - exact (conj Hstep Hconfirm).
Defined.

(** X9. A handler or the render throws (reads [field] of [undefined])
    exactly when the step index is outside 0..3; in a reachable state the
    wizard renders and every input is handled. *)
Theorem handlers_defined_iff_step_in_range :
  ∀ st : State,
    (is_Some (handleNext st) ↔ 0 ≤ currentStep st < 4)
    ∧ (∀ v, is_Some (onChange v st) ↔ 0 ≤ currentStep st < 4)
    ∧ (is_Some (render st) ↔ 0 ≤ currentStep st < 4)
    ∧ (reachable st → is_Some (render st) ∧ ∀ a, is_Some (handle a st)).
Proof.
  intros st.
  assert (is_Some (handleNext st) ↔ 0 ≤ currentStep st < 4) as Hnext.
  { rewrite <- currentField_is_Some. unfold handleNext.
    destruct (currentField st) as [cf|]; cbn.
    - destruct (validateField _ _ _) as [msg|]; [destruct (truthy msg)|];
        split; eauto.
    - split; intros [? [=]]. }
  assert (∀ v, is_Some (onChange v st) ↔ 0 ≤ currentStep st < 4) as Hchange.
  { intros v. rewrite <- currentField_is_Some. unfold onChange.
    destruct (currentField st) as [cf|]; cbn; [split; eauto|].
    split; intros [? [=]]. }
  assert (is_Some (render st) ↔ 0 ≤ currentStep st < 4) as Hrender.
  { rewrite <- currentField_is_Some. unfold render.
    destruct (currentField st) as [cf|]; cbn; [split; eauto|].
    split; intros [? [=]]. }
  split; [exact Hnext | split; [exact Hchange | split; [exact Hrender|]]].
  intros Hre. split.
  - apply Hrender. by apply reachable_step_range.
  - intros a. pose proof (reachable_step_range _ Hre) as Hr.
    destruct a as [v| | |key|]; cbn [handle].
    + destruct (proj2 (Hchange v) Hr) as [st1 ->]. cbn. eauto.
    + by apply Hnext.
    + eauto.
    + unfold handleKeyDown. case_bool_decide; [by apply Hnext | eauto].
    + eauto.
Qed.

(** X10. The buttons the wizard renders agree with what their handlers do:
    the back button is there exactly when a click on it changes the state;
    under "Continue" the forward button never submits, and under "Finish
    Registration" (shown exactly at step 3) it never changes the step. *)
Theorem buttons_match_their_handlers (st : State) (view : View) :
  render st = Some view →
  (backButton view = true ↔ handleBack st ≠ st)
  ∧ (nextButton view = lit "Finish Registration" ↔ currentStep st = 3)
  ∧ (nextButton view = lit "Continue" ↔ currentStep st ≠ 3)
  ∧ (nextButton view = lit "Continue" →
     ∀ st' out, handleNext st = Some (st', out) → out = [])
  ∧ (nextButton view = lit "Finish Registration" →
     ∀ st' out, handleNext st = Some (st', out) → currentStep st' = currentStep st).
Proof.
  intros Hview.
  destruct (currentField st) as [cf|] eqn:Hcf;
    [|unfold render in Hview; rewrite Hcf in Hview; discriminate].
  rewrite (render_Some _ _ Hcf) in Hview. injection Hview as <-.
  cbn [backButton nextButton].
  assert (∀ st' out, handleNext st = Some (st', out) →
                     (out ≠ [] → currentStep st = 3)
                     ∧ (currentStep st = 3 → currentStep st' = currentStep st))
    as Hnext.
  { intros st' out H.
    apply handleNext_outcome in H
      as (cf' & _ & [(msg & _ & -> & ->) | [(_ & Hlt & -> & ->) | (_ & Hc & -> & ->)]]);
      cbn [currentStep setErrors setCurrentStep]; split; (done || lia). }
  split_and!.
  - split.
    + intros Hb Heq. unfold handleBack in Heq. rewrite Hb in Heq.
      apply (f_equal currentStep) in Heq. cbn in Heq. lia.
    + intros Hne. destruct (Z.gtb_spec (currentStep st) 0) as [|Hle]; [done|].
      exfalso. apply Hne. unfold handleBack.
      by destruct (Z.gtb_spec (currentStep st) 0); [lia|].
  - by destruct (Z.eqb_spec (currentStep st) 3).
  - by destruct (Z.eqb_spec (currentStep st) 3).
  - intros Hl st' out H. destruct (Hnext _ _ H) as [Hout _].
    destruct (Z.eqb_spec (currentStep st) 3) as [|Hne]; [discriminate Hl|].
    destruct out; [done|]. exfalso. apply Hne, Hout. done.
  - intros Hl st' out H. destruct (Hnext _ _ H) as [_ Hstep].
    destruct (Z.eqb_spec (currentStep st) 3); [auto | discriminate Hl].
Qed.

Lemma buttons_match_their_handlers_witness :
  nextButton
    (mkView (ProgressSteps.ProgressSteps 3 4) (lit "Confirm your password")
       (lit "password") (lit "Re-enter your password") (lit "abcdefgh") None
       true (lit "Finish Registration"))
  = lit "Finish Registration"
  ∧ currentStep
      (mkState 3
         (mkFormData (lit "Al") (lit "a@b.co") (lit "abcdefgh") (lit "abcdefgh"))
         (<[k_confirmPassword := empty]> ∅))
    = 3.
Proof.
  destruct (buttons_match_their_handlers
              (mkState 3
                 (mkFormData (lit "Al") (lit "a@b.co") (lit "abcdefgh")
                    (lit "abcdefgh")) ∅)
              (mkView (ProgressSteps.ProgressSteps 3 4)
                 (lit "Confirm your password") (lit "password")
                 (lit "Re-enter your password") (lit "abcdefgh") None true
                 (lit "Finish Registration")))
    as (_ & _ & _ & _ & Hfinish); [reflexivity|].
  split; [reflexivity|].
  apply (Hfinish eq_refl _ handleSubmit). vm_compute. reflexivity.
Defined.

(** X11. An edit reaches the active step's field and nothing else: that
    field then holds the value typed and the input shows it, its error is
    the empty string so no message shows, and the step, every other field
    and every other error entry stay as they were. *)
Theorem edit_changes_only_active_field (st st' : State) (v : jsstring) :
  onChange v st = Some st' →
  ∃ cf view,
    currentField st = Some cf
    ∧ currentStep st' = currentStep st
    ∧ get (formData st') (field cf) = v
    ∧ errors st' !! field cf = Some empty
    ∧ (∀ k, k ≠ field cf →
            get (formData st') k = get (formData st) k
            ∧ errors st' !! k = errors st !! k)
    ∧ render st' = Some view
    ∧ inputValue view = v
    ∧ message view = None.
Proof.
  intros H.
  destruct (currentField st) as [cf|] eqn:Hcf;
    [|unfold onChange in H; rewrite Hcf in H; discriminate].
  rewrite (onChange_Some _ _ _ Hcf) in H. injection H as <-.
  assert (currentField
            (setErrors (<[field cf:=empty]> (errors st))
               (setFormData (set (formData st) (field cf) v) st)) = Some cf)
    as Hcf' by exact Hcf.
  exists cf. eexists. rewrite (render_Some _ _ Hcf').
  cbn [currentStep formData errors setErrors setFormData inputValue message].
  rewrite get_set_eq, lookup_insert_eq.
  split_and!; try done.
  intros k Hk. by rewrite get_set_ne, lookup_insert_ne.
Qed.

Lemma edit_changes_only_active_field_witness :
  ∃ view,
    render (mkState 0 (mkFormData (lit "Al") empty empty empty)
              (<[k_name := empty]> ∅)) = Some view
    ∧ inputValue view = lit "Al"
    ∧ message view = None.
Proof.
  destruct (edit_changes_only_active_field initial
              (mkState 0 (mkFormData (lit "Al") empty empty empty)
                 (<[k_name := empty]> ∅)) (lit "Al"))
    as (cf & view & _ & _ & _ & _ & _ & Hview & Hvalue & Hmsg); [reflexivity|].
  exists view. exact (conj Hview (conj Hvalue Hmsg)).
Defined.

(** X12. What shows under the input in a reachable state: after a failed
    forward click the validator's message, over the unchanged input; after
    a click on the back button no message, over the stored value of the
    step gone back to. *)
Theorem message_after_advance_and_retreat (st : State) :
  reachable st →
  (∀ cf msg,
      currentField st = Some cf →
      validateField st (field cf) (get (formData st) (field cf)) = Some msg →
      ∃ st' view,
        handleNext st = Some (st', [])
        ∧ render st' = Some view
        ∧ message view = Some msg
        ∧ inputValue view = get (formData st) (field cf))
  ∧ (0 < currentStep st →
     ∃ cf view,
       currentField (handleBack st) = Some cf
       ∧ step_of (field cf) = currentStep st - 1
       ∧ render (handleBack st) = Some view
       ∧ message view = None
       ∧ inputValue view = get (formData st) (field cf)).
Proof.
  intros Hre. split.
  - intros cf msg Hcf Hv. rewrite (handleNext_failure _ _ _ Hcf Hv).
    eexists _, _. split; [reflexivity|].
    assert (currentField (setErrors (<[field cf:=msg]> (errors st)) st) = Some cf)
      as Hcf' by exact Hcf.
    rewrite (render_Some _ _ Hcf'). split; [reflexivity|].
    cbn [message inputValue errors formData setErrors].
    rewrite lookup_insert_eq. cbn [paragraph_if].
    by rewrite (validateField_truthy _ _ _ _ Hv).
  - intros Hpos.
    pose proof (reachable_step_range _ Hre) as Hr.
    pose proof (reachable_errors_cleared _ Hre) as Herr.
    unfold handleBack. destruct (Z.gtb_spec (currentStep st) 0); [|lia].
    destruct (currentField_in_range (setCurrentStep (currentStep st - 1) st))
      as [cf Hcf]; [cbn; lia|].
    pose proof (currentField_step_of _ _ Hcf) as Hstep. cbn in Hstep.
    rewrite (render_Some _ _ Hcf). exists cf. eexists.
    split; [exact Hcf|]. split; [exact Hstep|]. split; [reflexivity|].
    cbn [message inputValue errors formData setCurrentStep].
    rewrite Herr by lia. split; reflexivity.
Qed.

Lemma message_after_advance_and_retreat_witness :
  ∃ view,
    render (handleBack (mkState 1 (mkFormData (lit "Al") empty empty empty)
                          (<[k_name := empty]> ∅))) = Some view
    ∧ message view = None.
Proof.
  destruct (message_after_advance_and_retreat _ reachable_after_name)
    as [_ Hback].
  destruct Hback as (cf & view & _ & _ & Hview & Hmsg & _); [cbn; lia|].
  exists view. exact (conj Hview Hmsg).
Defined.

End WizardView.

(** ** The progress bar as a row *)

Lemma className_renders_as currentStep i :
  ProgressSteps.renders_as
    (ProgressSteps.mkSegment i (ProgressSteps.className currentStep i))
    (if i <? currentStep then ProgressSteps.completed
     else if i =? currentStep then ProgressSteps.active
     else ProgressSteps.pending).
Proof.
  unfold ProgressSteps.renders_as, ProgressSteps.className,
    ProgressSteps.segmentClass. cbn [ProgressSteps.segment_className].
  by destruct (i <? currentStep), (i =? currentStep).
Qed.

Lemma ProgressSteps_lookup_inv currentStep totalSteps n seg :
  ProgressSteps.ProgressSteps currentStep totalSteps !! n = Some seg →
  Z.of_nat n < totalSteps
  ∧ seg = ProgressSteps.mkSegment (Z.of_nat n)
            (ProgressSteps.className currentStep (Z.of_nat n)).
Proof.
  intros H. pose proof (lookup_lt_Some _ _ _ H) as Hlt.
  rewrite ProgressSteps_length in Hlt.
  rewrite <- (Nat2Z.id n) in H.
  rewrite ProgressSteps_lookup in H by lia. injection H as <-.
  split; [lia | done].
Qed.

Lemma row_with_active_lookup current count n s :
  row_with_active current count !! n = Some s →
  s = if (n <? current)%nat then ProgressSteps.completed
      else if (n =? current)%nat then ProgressSteps.active
      else ProgressSteps.pending.
Proof.
  unfold row_with_active. intros H.
  destruct (Nat.ltb_spec n current) as [Hlt|Hge].
  - rewrite lookup_app_l in H by (rewrite length_replicate; lia).
    by apply lookup_replicate in H as [-> _].
  - rewrite lookup_app_r, length_replicate in H by (rewrite length_replicate; lia).
    destruct (Nat.eqb_spec n current) as [->|Hne].
    + rewrite Nat.sub_diag in H. by injection H as <-.
    + destruct (n - current)%nat as [|m] eqn:Hm; [lia|]. cbn in H.
      by apply lookup_replicate in H as [-> _].
Qed.

Lemma row_with_active_length current count :
  (current < count)%nat → length (row_with_active current count) = count.
Proof.
  intros H. unfold row_with_active.
  rewrite length_app, length_replicate. cbn [length].
  rewrite length_replicate. lia.
Qed.

Lemma progress_row_in_range currentStep totalSteps :
  0 ≤ currentStep < totalSteps →
  Forall2 ProgressSteps.renders_as
    (ProgressSteps.ProgressSteps currentStep totalSteps)
    (row_with_active (Z.to_nat currentStep) (Z.to_nat totalSteps)).
Proof.
  intros Hr. apply Forall2_same_length_lookup_2.
  - rewrite ProgressSteps_length, row_with_active_length by lia. done.
  - intros n seg s [Hn ->]%ProgressSteps_lookup_inv ->%row_with_active_lookup.
    pose proof (className_renders_as currentStep (Z.of_nat n)) as H.
    destruct (Z.ltb_spec (Z.of_nat n) currentStep),
      (Nat.ltb_spec n (Z.to_nat currentStep)); try lia; [done|].
    destruct (Z.eqb_spec (Z.of_nat n) currentStep),
      (Nat.eqb_spec n (Z.to_nat currentStep)); try lia; done.
Qed.

(** X13. The progress bar as a row.  With the current step inside the row
    it shows [currentStep] completed segments, then one active segment,
    then pending ones up to [totalSteps]; with the current step at or past
    the end every segment is completed and none is active; with a negative
    current step every segment is pending. *)
Theorem progress_row_shape :
  ∀ currentStep totalSteps : Z,
    (0 ≤ currentStep < totalSteps →
     Forall2 ProgressSteps.renders_as
       (ProgressSteps.ProgressSteps currentStep totalSteps)
       (row_with_active (Z.to_nat currentStep) (Z.to_nat totalSteps)))
    ∧ (totalSteps ≤ currentStep →
       Forall (λ seg, ProgressSteps.renders_as seg ProgressSteps.completed)
         (ProgressSteps.ProgressSteps currentStep totalSteps))
    ∧ (currentStep < 0 →
       Forall (λ seg, ProgressSteps.renders_as seg ProgressSteps.pending)
         (ProgressSteps.ProgressSteps currentStep totalSteps)).
Proof.
  intros currentStep totalSteps. split_and!.
  - apply progress_row_in_range.
  - intros Hge. apply Forall_lookup.
    intros n seg [Hn ->]%ProgressSteps_lookup_inv.
    pose proof (className_renders_as currentStep (Z.of_nat n)) as H.
    by destruct (Z.ltb_spec (Z.of_nat n) currentStep); [|lia].
  - intros Hneg. apply Forall_lookup.
    intros n seg [Hn ->]%ProgressSteps_lookup_inv.
    pose proof (className_renders_as currentStep (Z.of_nat n)) as H.
    destruct (Z.ltb_spec (Z.of_nat n) currentStep); [lia|].
    by destruct (Z.eqb_spec (Z.of_nat n) currentStep); [lia|].
Qed.

(** X14. In every reachable state the wizard renders a progress bar of four
    segments: as many completed ones as steps were passed, then the active
    one, then pending ones. *)
Theorem wizard_progress_row (st : Register.State) :
  Register.reachable st →
  ∃ view,
    Register.render st = Some view
    ∧ length (Register.progress view) = 4%nat
    ∧ Forall2 ProgressSteps.renders_as (Register.progress view)
        (row_with_active (Z.to_nat (Register.currentStep st)) 4).
Proof.
  intros Hre. pose proof (reachable_step_range _ Hre) as Hr.
  destruct (currentField_in_range _ Hr) as [cf Hcf].
  rewrite (render_Some _ _ Hcf). eexists. split; [reflexivity|].
  cbn [Register.progress]. split.
  - by rewrite ProgressSteps_length.
  - by apply (progress_row_in_range (Register.currentStep st) 4).
Qed.

Lemma wizard_progress_row_witness :
  ∃ view,
    Register.render
      (Register.mkState 1
         (Register.mkFormData (lit "Al") empty empty empty)
         (<[Register.k_name := empty]> ∅)) = Some view
    ∧ length (Register.progress view) = 4%nat
    ∧ Forall2 ProgressSteps.renders_as (Register.progress view)
        [ProgressSteps.completed; ProgressSteps.active;
         ProgressSteps.pending; ProgressSteps.pending].
Proof.
  exact (wizard_progress_row _ reachable_after_name).
Defined.

(** ** Sessions handled in order *)

Section InOrder.

Import Register.

(** X15. In a session in which every input is handled by the latest render
    (no input lands on a panel that is animating out), the fields of the
    passed steps are valid; so a submission finds the name of trimmed length
    at least 2, the email matching the pattern, the password of length at
    least 8 and the confirmation equal to it, and past step 0 a back click
    followed by a forward click returns the same state and calls nothing. *)
Theorem in_order_sessions_keep_passed_steps_valid (st : State) :
  reachable_in_order st →
  (1 ≤ currentStep st → 2 ≤ str_length (trim (name (formData st))))
  ∧ (2 ≤ currentStep st → matches_email_pattern (email (formData st)))
  ∧ (currentStep st = 3 → 8 ≤ str_length (password (formData st)))
  ∧ (∀ a st' out,
        handle a st = Some (st', out) →
        out = [toast (lit "Account created!") (lit "Welcome to Meridian AI.");
               navigate (lit "/")] →
        2 ≤ str_length (trim (name (formData st)))
        ∧ matches_email_pattern (email (formData st))
        ∧ 8 ≤ str_length (password (formData st))
        ∧ confirmPassword (formData st) = password (formData st))
  ∧ (0 < currentStep st → handleNext (handleBack st) = Some (st, [])).
Proof.
  intros Hin. pose proof (in_order_wizard_inv _ Hin) as (Hr & Hn & He & Hp).
  pose proof (reachable_errors_cleared _ (reachable_in_order_reachable _ Hin))
    as Herr.
  assert (∀ st' out, handleNext st = Some (st', out) → out = handleSubmit →
                     2 ≤ str_length (trim (name (formData st)))
                     ∧ matches_email_pattern (email (formData st))
                     ∧ 8 ≤ str_length (password (formData st))
                     ∧ confirmPassword (formData st) = password (formData st))
    as Hnext.
  { intros st' out Hh Hout.
    apply handleNext_outcome in Hh
      as (cf & Hcf & [(msg & _ & _ & ->) | [(_ & _ & _ & ->) | (Hv & Hc & _ & _)]]);
      [discriminate Hout | discriminate Hout |].
    pose proof (currentField_step_of _ _ Hcf) as Hstep.
    destruct (field cf) eqn:Hf; cbn [step_of] in Hstep; try lia.
    cbn [get] in Hv. apply validateField_confirmPassword in Hv.
    split_and!; [apply Hn; lia | apply test_emailRegex, He; lia
                | apply Hp; lia | done]. }
  split_and!.
  - done.
  - intros H2. by apply test_emailRegex, He.
  - intros H3. apply Hp. lia.
  - intros a st' out Ha Hout.
    destruct a as [v| | |key|]; cbn [handle] in Ha.
    + destruct (onChange v st); [|discriminate]. injection Ha as <- <-.
      discriminate Hout.
    + by eapply Hnext.
    + injection Ha as <- <-. discriminate Hout.
    + unfold handleKeyDown in Ha. case_bool_decide.
      * by eapply Hnext.
      * injection Ha as <- <-. discriminate Hout.
    + injection Ha as <- <-. discriminate Hout.
  - intros Hpos.
    destruct (currentField_in_range (handleBack st)) as [cf Hcf].
    { unfold handleBack. destruct (Z.gtb_spec (currentStep st) 0); cbn; lia. }
    pose proof (currentField_step_of _ _ Hcf) as Hstep.
    assert (currentStep (handleBack st) = currentStep st - 1) as Hb.
    { unfold handleBack. by destruct (Z.gtb_spec (currentStep st) 0); [|lia]. }
    rewrite Hb in Hstep.
    apply (handleNext_after_handleBack st cf); [lia | done | | apply Herr; lia].
    destruct (field cf); cbn [step_of] in Hstep; cbn [get].
    + apply validateField_name, Hn. lia.
    + apply validateField_email, He. lia.
    + apply validateField_password, Hp. lia.
    + lia.
Qed.

Lemma in_order_sessions_keep_passed_steps_valid_witness :
  2 ≤ str_length (trim (lit "Al")).
Proof.
  apply (in_order_sessions_keep_passed_steps_valid
           (mkState 1 (mkFormData (lit "Al") empty empty empty)
              (<[k_name := empty]> ∅))).
  - eapply (in_order_handle _ ClickNext);
      [eapply (in_order_handle _ (Change (lit "Al"))); [apply in_order_initial|] |];
      vm_compute; reflexivity.
  - cbn. lia.
Defined.

End InOrder.
